(** * Contact form pipeline: rate limiter, schema, mail transport, API route

    A shallow embedding of the server side of the contact form:

    - [RateLimit]  : lib/server/rate-limit.ts  (fixed-window counter)
    - [ClientIp]   : lib/server/get-client-ip.ts
    - [Schema]     : lib/contact/schema.ts     (the zod object schema)
    - [Brevo]      : services/brevo.service.ts and lib/email/brevo.ts
    - [Route]      : app/api/contact/route.ts  (the POST handler)
    - [Client]     : services/contact.service.ts and the validators of
                     components/contact/contact-form.tsx

    Conventions.  A JavaScript [number] holding a time stamp or a counter is
    an integer [Z].  A JavaScript string is a [string], one character per
    code unit.  [Date.now()], [process.env] and the reply of the mail
    provider are inputs of the handler, gathered in a [World]; the module
    level [rateLimitMap] and the list of HTTP calls sent to the provider are
    threaded explicitly as a [State].  Console output is not modelled. *)

From Stdlib Require Import ZArith Lia String Ascii Bool Sorted.
From stdpp Require Import base option list gmap strings fin_maps.

Local Open Scope string_scope.
Local Open Scope Z_scope.

(** JavaScript truthiness of a possibly undefined string: [truthy v] is the
    string itself when [v] is defined and not empty.  [orElse a b] is
    [a || b]. *)
Definition truthy (v : option string) : option string :=
  match v with
  | Some s => if String.eqb s "" then None else Some s
  | None => None
  end.

(** [s.length] *)
Definition len (s : string) : Z := Z.of_nat (String.length s).

Definition orElse (a b : option string) : option string :=
  match truthy a with
  | Some _ => a
  | None => b
  end.

(* ------------------------------------------------------------------ *)
(** ** lib/server/rate-limit.ts *)

Module RateLimit.

Definition DEFAULT_MAX_REQUESTS : Z := 5.
Definition DEFAULT_WINDOW_MS : Z := 60 * 1000.

Record RateLimitRecord := { count : Z; resetTime : Z }.

Record Options := { maxRequests : option Z; windowMs : option Z }.

(** [now > record.resetTime] *)
Definition expired (now : Z) (record : RateLimitRecord) : bool :=
  now >? resetTime record.

(** [isRateLimited(key, options)], reading the clock [now] and the table
    [rateLimitMap]; returns the answer and the table after the call. *)
Definition isRateLimited (key : string) (options : option Options) (now : Z)
    (rateLimitMap : gmap string RateLimitRecord)
  : bool * gmap string RateLimitRecord :=
  let maxRequests := default DEFAULT_MAX_REQUESTS (options ≫= maxRequests) in
  let windowMs := default DEFAULT_WINDOW_MS (options ≫= windowMs) in
  let fresh := {| count := 1; resetTime := now + windowMs |} in
  match rateLimitMap !! key with
  | None => (false, <[key := fresh]> rateLimitMap)
  | Some record =>
      if expired now record then (false, <[key := fresh]> rateLimitMap)
      else
        let record' := {| count := count record + 1;
                          resetTime := resetTime record |} in
        (count record' >? maxRequests, <[key := record']> rateLimitMap)
  end.

(** [cleanupRateLimitMap()]: every entry with [now > record.resetTime] is
    deleted, the others stay. *)
Definition cleanupRateLimitMap (now : Z)
    (rateLimitMap : gmap string RateLimitRecord)
  : gmap string RateLimitRecord :=
  filter (λ kr : string * RateLimitRecord, expired now kr.2 = false)
         rateLimitMap.

(** What happens to the table between two requests: a call of the limiter
    or a tick of the five-minute timer. *)
Inductive Event :=
  | Call (key : string) (options : option Options) (now : Z)
  | Sweep (now : Z).

Definition eventTime (e : Event) : Z :=
  match e with
  | Call _ _ now => now
  | Sweep now => now
  end.

(** Runs the events in order and collects the answers of the calls. *)
Fixpoint run (events : list Event) (m : gmap string RateLimitRecord)
  : list bool * gmap string RateLimitRecord :=
  match events with
  | [] => ([], m)
  | Call key options now :: rest =>
      let '(b, m') := isRateLimited key options now m in
      let '(bs, m'') := run rest m' in
      (b :: bs, m'')
  | Sweep now :: rest => run rest (cleanupRateLimitMap now m)
  end.

End RateLimit.

(* ------------------------------------------------------------------ *)
(** ** lib/server/get-client-ip.ts *)

Module ClientIp.

(** White space removed by [String.prototype.trim], for code units below
    256: TAB, LF, VT, FF, CR, SPACE and NBSP. *)
Definition isWhiteSpace (c : ascii) : bool :=
  let n := nat_of_ascii c in
  ((9 <=? n)%nat && (n <=? 13)%nat) || (n =? 32)%nat || (n =? 160)%nat.

Fixpoint trimStart (s : string) : string :=
  match s with
  | String c rest => if isWhiteSpace c then trimStart rest else s
  | EmptyString => EmptyString
  end.

Fixpoint trimEnd (s : string) : string :=
  match s with
  | String c rest =>
      match trimEnd rest with
      | EmptyString => if isWhiteSpace c then EmptyString
                       else String c EmptyString
      | rest' => String c rest'
      end
  | EmptyString => EmptyString
  end.

Definition trim (s : string) : string := trimEnd (trimStart s).

(** [s.split(',')[0]]: the text before the first comma. *)
Fixpoint firstOfSplit (s : string) : string :=
  match s with
  | String c rest =>
      if Ascii.eqb c "," then EmptyString else String c (firstOfSplit rest)
  | EmptyString => EmptyString
  end.

(** [getClientIp(request)]; [headers] maps lower-case header names to
    their values, an absent key standing for [headers.get] returning
    [null]. *)
Definition getClientIp (headers : gmap string string) : string :=
  match truthy (headers !! "x-forwarded-for") with
  | Some forwardedFor => trim (firstOfSplit forwardedFor)
  | None =>
      match truthy (headers !! "x-real-ip") with
      | Some realIp => realIp
      | None => "unknown"
      end
  end.

End ClientIp.

(* ------------------------------------------------------------------ *)
(** ** lib/contact/schema.ts *)

Module Schema.

(** The kinds of issue for which the schema gives no text of its own: a
    member of the wrong type (or missing), a value outside an enumeration. *)
Inductive IssueCode := invalid_type | invalid_value.

(** The text of a validation issue: either the message written in the
    schema, or the one the validation library picks itself for an issue of
    the given kind (its text is not part of this repository). *)
Inductive Message :=
  | Text (text : string)
  | LibraryText (code : IssueCode).

Module Issue.
Record t := { path : list string; message : Message }.
End Issue.

(** Outcome of parsing one value: the parsed value, or the issues found. *)
Inductive Parsed (A : Type) :=
  | Valid (value : A)
  | Invalid (issues : list Issue.t).
Arguments Valid {A} value.
Arguments Invalid {A} issues.

(** The checks chained on a string schema. *)
Inductive Check :=
  | min (minimum : Z) (error : string)
  | max (maximum : Z) (error : string)
  | email_format (error : string).

Definition projectTypes : list string :=
  ["website"; "webapp"; "mobile"; "ecommerce"; "other"].

Definition budgetRanges : list string :=
  ["less-than-5k"; "5k-10k"; "10k-25k"; "25k-50k"; "more-than-50k";
   "not-sure"].

(** [z.infer<typeof contactSchema>] *)
Record ContactFormValues := {
  name : string;
  email : string;
  subject : string;
  message : string;
  projectType : option string;
  budget : option string;
  honeypot : option string
}.

Definition issue (key : string) (m : Message) : Issue.t :=
  {| Issue.path := [key]; Issue.message := m |}.

(** [z.enum(options)] applied to member [key]. *)
Definition zEnum (options : list string) (key : string)
    (input : option string) : Parsed string :=
  match input with
  | None => Invalid [issue key (LibraryText invalid_type)]
  | Some s =>
      if bool_decide (s ∈ options) then Valid s
      else Invalid [issue key (LibraryText invalid_value)]
  end.

(** [inner.optional()] *)
Definition optional {A} (inner : string -> option string -> Parsed A)
    (key : string) (input : option string) : Parsed (option A) :=
  match input with
  | None => Valid None
  | Some _ =>
      match inner key input with
      | Valid a => Valid (Some a)
      | Invalid issues => Invalid issues
      end
  end.

(** [z.object]: the members are parsed in the order of the shape and their
    issues are gathered in that order. *)
Definition andThen {A B} (acc : Parsed (A -> B)) (member : Parsed A)
  : Parsed B :=
  match acc, member with
  | Valid f, Valid a => Valid (f a)
  | Valid _, Invalid issues => Invalid issues
  | Invalid issues, Valid _ => Invalid issues
  | Invalid issues, Invalid issues' => Invalid (issues ++ issues')%list
  end.

Section WithLibrary.

(** The address syntax test of the validation library ([z.email]). *)
Variable isEmail : string -> bool.

(** One check on a string: the issues it raises.  Every check of the chain
    runs, whatever the earlier ones found. *)
Definition runCheck (key : string) (input : string) (ch : Check)
  : list Issue.t :=
  match ch with
  | min minimum error =>
      if len input <? minimum then [issue key (Text error)] else []
  | max maximum error =>
      if maximum <? len input then [issue key (Text error)] else []
  | email_format error =>
      if isEmail input then [] else [issue key (Text error)]
  end.

(** [z.string()] followed by [checks], applied to member [key]. *)
Definition zString (checks : list Check) (key : string)
    (input : option string) : Parsed string :=
  match input with
  | None => Invalid [issue key (LibraryText invalid_type)]
  | Some s =>
      match flat_map (runCheck key s) checks with
      | [] => Valid s
      | issues => Invalid issues
      end
  end.

(** [z.email(error)] followed by [checks], applied to member [key].  The
    text given to [z.email] is the error of that schema: it is reported
    for a member that is missing as well as for a string that is not an
    address; the checks chained after it run on strings, after the test of
    the address. *)
Definition zEmail (error : string) (checks : list Check) (key : string)
    (input : option string) : Parsed string :=
  match input with
  | None => Invalid [issue key (Text error)]
  | Some s =>
      match flat_map (runCheck key s) (email_format error :: checks) with
      | [] => Valid s
      | issues => Invalid issues
      end
  end.

(** [contactSchema.safeParse(body)].  The parsed request body is a JSON
    object, given as the finite map from its member names to their values.
    Members are JSON strings; a member the body does not have is absent
    from the map ([undefined] for the schema).  Bodies that are not
    objects, or that carry a member which is not a string, are outside
    this model. *)
Definition contactSchema (body : gmap string string)
  : Parsed ContactFormValues :=
  andThen (andThen (andThen (andThen (andThen (andThen (andThen
    (Valid Build_ContactFormValues)
    (zString
       [min 2 "Le nom doit contenir au moins 2 caractères";
        max 100 "Le nom ne peut pas dépasser 100 caractères"]
       "name" (body !! "name")))
    (zEmail "Veuillez entrer une adresse email valide"
       [max 255 "L'email ne peut pas dépasser 255 caractères"]
       "email" (body !! "email")))
    (zString
       [min 3 "Le sujet doit contenir au moins 3 caractères";
        max 200 "Le sujet ne peut pas dépasser 200 caractères"]
       "subject" (body !! "subject")))
    (zString
       [min 20 "Le message doit contenir au moins 20 caractères";
        max 5000 "Le message ne peut pas dépasser 5000 caractères"]
       "message" (body !! "message")))
    (optional (zEnum projectTypes) "projectType" (body !! "projectType")))
    (optional (zEnum budgetRanges) "budget" (body !! "budget")))
    (optional (zString [max 0 "Ce champ doit rester vide"])
       "honeypot" (body !! "honeypot")).

End WithLibrary.

(** The address pattern [z.email] tests by default.  The text must not
    start with a dot nor hold two dots in a row; before the [@] come
    characters among letters, digits and [_ ' + - .], the last of them not
    being a quote or a dot; after it come one or more labels (a letter or
    digit, then letters, digits or hyphens), each followed by a dot, and at
    the end two letters or more. *)
Module EmailPattern.

Definition between (lo hi : nat) (c : ascii) : bool :=
  let n := nat_of_ascii c in (lo <=? n)%nat && (n <=? hi)%nat.

Definition isLetter (c : ascii) : bool := between 65 90 c || between 97 122 c.
Definition isAlnum (c : ascii) : bool := isLetter c || between 48 57 c.

(** The last character of the local part, and any character of it. *)
Definition isLocalEnd (c : ascii) : bool :=
  isAlnum c || Ascii.eqb c "_" || Ascii.eqb c "+" || Ascii.eqb c "-".
Definition isLocalChar (c : ascii) : bool :=
  isLocalEnd c || Ascii.eqb c "'" || Ascii.eqb c ".".

Definition isLabelChar (c : ascii) : bool := isAlnum c || Ascii.eqb c "-".

Fixpoint all (p : ascii -> bool) (s : string) : bool :=
  match s with
  | String c rest => p c && all p rest
  | EmptyString => true
  end.

Fixpoint lastChar (s : string) : option ascii :=
  match s with
  | String c EmptyString => Some c
  | String _ rest => lastChar rest
  | EmptyString => None
  end.

(** Splits at the first occurrence of [sep]. *)
Fixpoint splitAt (sep : ascii) (s : string) : option (string * string) :=
  match s with
  | String c rest =>
      if Ascii.eqb c sep then Some (EmptyString, rest)
      else match splitAt sep rest with
           | Some (l, r) => Some (String c l, r)
           | None => None
           end
  | EmptyString => None
  end.

(** The two look-aheads: a leading dot, two dots in a row. *)
Definition startsWithDot (s : string) : bool :=
  match s with
  | String c _ => Ascii.eqb c "."
  | EmptyString => false
  end.

Fixpoint hasDotDot (s : string) : bool :=
  match s with
  | String c rest => (Ascii.eqb c "." && startsWithDot rest) || hasDotDot rest
  | EmptyString => false
  end.

(** A label of the domain. *)
Definition isLabel (s : string) : bool :=
  match s with
  | String c rest => isAlnum c && all isLabelChar rest
  | EmptyString => false
  end.

(** The last part of the domain. *)
Definition isTopLevel (s : string) : bool :=
  (2 <=? String.length s)%nat && all isLetter s.

(** The domain, its labels being cut at the dots; [seen] tells whether a
    label came before. *)
Fixpoint isDomainFrom (fuel : nat) (seen : bool) (s : string) : bool :=
  match fuel with
  | O => false
  | S fuel' =>
      match splitAt "." s with
      | Some (label, rest) => isLabel label && isDomainFrom fuel' true rest
      | None => seen && isTopLevel s
      end
  end.

Definition isDomain (s : string) : bool :=
  isDomainFrom (S (String.length s)) false s.

Definition isLocal (s : string) : bool :=
  all isLocalChar s &&
  match lastChar s with
  | Some c => isLocalEnd c
  | None => false
  end.

Definition test (s : string) : bool :=
  negb (startsWithDot s) && negb (hasDotDot s) &&
  match splitAt "@" s with
  | Some (localPart, domain) => isLocal localPart && isDomain domain
  | None => false
  end.

End EmailPattern.

End Schema.

(* ------------------------------------------------------------------ *)
(** ** What a handler reads from outside *)

(** An exception: [new Error(message)], or one raised by the runtime
    (rejected [fetch], JSON syntax error, property read on [null]). *)
Inductive Exception :=
  | Error (message : string)
  | RuntimeError.

Inductive Result (A : Type) :=
  | Ok (value : A)
  | Throw (e : Exception).
Arguments Ok {A} value.
Arguments Throw {A} e.

(* ------------------------------------------------------------------ *)
(** ** lib/brevo/types.ts, services/brevo.service.ts, lib/email/brevo.ts *)

Module Brevo.

Module SendContactEmailParams.
Record t := {
  name : string;
  email : string;
  subject : string;
  message : string;
  projectType : option string;
  budget : option string
}.
End SendContactEmailParams.

Module Address.
Record t := { name : string; email : string }.
End Address.

Module BrevoEmailRequestBody.
Record t := {
  sender : Address.t;
  to : list Address.t;
  replyTo : Address.t;
  subject : string;
  htmlContent : string;
  textContent : string
}.
End BrevoEmailRequestBody.

(** One [fetch] to the provider: a POST of [JSON.stringify(body)] to [url]
    with the header [api-key]. *)
Module FetchCall.
Record t := {
  url : string;
  apiKey : string;
  body : BrevoEmailRequestBody.t
}.
End FetchCall.

(** A value read by [response.json()]: [null], or another value seen
    through its string members (a value that is not an object has none).
    [BrevoApiResponse] and [BrevoApiError] are such values. *)
Inductive Json :=
  | Null
  | Value (members : gmap string string).

(** What [fetch] comes back with: a rejection, or a response whose body is
    JSON or not ([None]). *)
Inductive FetchOutcome :=
  | Rejected
  | Responded (status : Z) (statusText : string) (body : option Json).

(** [response.ok] *)
Definition ok (status : Z) : bool := (200 <=? status) && (status <=? 299).

(** [data.messageId], a [TypeError] on [null]. *)
Definition messageId (data : Json) : Result (option string) :=
  match data with
  | Null => Throw RuntimeError
  | Value members => Ok (members !! "messageId")
  end.

Record World := {
  now : Z;                                   (* Date.now() *)
  env : gmap string string;                  (* process.env *)
  fetch : FetchCall.t -> FetchOutcome
}.

Definition BREVO_API_URL : string := "https://api.brevo.com/v3/smtp/email".

(** [sendBrevoEmail(requestBody)]; [calls] lists the requests sent to the
    provider so far, oldest first. *)
Definition sendBrevoEmail (w : World) (requestBody : BrevoEmailRequestBody.t)
    (calls : list FetchCall.t) : Result Json * list FetchCall.t :=
  match truthy (env w !! "BREVO_API_KEY") with
  | None =>
      (Throw (Error "BREVO_API_KEY is not defined in environment variables"),
       calls)
  | Some apiKey =>
      let call := {| FetchCall.url := BREVO_API_URL;
                     FetchCall.apiKey := apiKey;
                     FetchCall.body := requestBody |} in
      let calls' := (calls ++ [call])%list in
      match fetch w call with
      | Rejected => (Throw RuntimeError, calls')
      | Responded status statusText body =>
          if negb (ok status) then
            let errorData :=
              default (Value (list_to_map [("message", "Unknown error");
                                           ("code", "UNKNOWN")])) body in
            match errorData with
            | Null => (Throw RuntimeError, calls')
            | Value members =>
                (Throw (Error ("Failed to send email: " +:+
                   default statusText (truthy (members !! "message")))),
                 calls')
            end
          else
            match body with
            | None => (Throw RuntimeError, calls')
            | Some data => (Ok data, calls')
            end
      end
  end.

Section WithRenderer.

(** [generateContactEmailContent(params)]: the HTML and plain text the
    mail template renders to. *)
Variable generateContactEmailContent :
  SendContactEmailParams.t -> string * string.

(** [sendContactEmail(params)], answering the [messageId]. *)
Definition sendContactEmail (w : World) (params : SendContactEmailParams.t)
    (calls : list FetchCall.t) : Result string * list FetchCall.t :=
  if bool_decide (env w !! "NODE_ENV" ≠ Some "production") then
    (Ok "dev-console", calls)
  else
    let senderEmail := env w !! "BREVO_SENDER_EMAIL" in
    let senderName :=
      default "Portfolio Contact" (truthy (env w !! "BREVO_SENDER_NAME")) in
    let receiverEmail :=
      orElse (env w !! "BREVO_RECEIVER_EMAIL")
             (env w !! "BREVO_SENDER_EMAIL") in
    match truthy senderEmail with
    | None =>
        (Throw (Error
           "BREVO_SENDER_EMAIL is not defined in environment variables"),
         calls)
    | Some senderEmail =>
        match truthy receiverEmail with
        | None =>
            (Throw (Error
               "BREVO_RECEIVER_EMAIL is not defined in environment variables"),
             calls)
        | Some receiverEmail =>
            let '(htmlContent, textContent) :=
              generateContactEmailContent params in
            let requestBody := {|
              BrevoEmailRequestBody.sender :=
                {| Address.name := senderName;
                   Address.email := senderEmail |};
              BrevoEmailRequestBody.to :=
                [{| Address.email := receiverEmail;
                    Address.name := "Portfolio Owner" |}];
              BrevoEmailRequestBody.replyTo :=
                {| Address.email := SendContactEmailParams.email params;
                   Address.name := SendContactEmailParams.name params |};
              BrevoEmailRequestBody.subject :=
                "[Portfolio] " +:+ SendContactEmailParams.subject params;
              BrevoEmailRequestBody.htmlContent := htmlContent;
              BrevoEmailRequestBody.textContent := textContent |} in
            match sendBrevoEmail w requestBody calls with
            | (Throw e, calls') => (Throw e, calls')
            | (Ok data, calls') =>
                match messageId data with
                | Throw e => (Throw e, calls')
                | Ok id => (Ok (default "unknown" (truthy id)), calls')
                end
            end
        end
    end.

End WithRenderer.

End Brevo.

(* ------------------------------------------------------------------ *)
(** ** app/api/contact/route.ts *)

Module Route.

Import Schema Brevo.

Module Request.
(** [json] is [None] when [request.json()] throws. *)
Record t := {
  headers : gmap string string;
  json : option (gmap string string)
}.
End Request.

Module FieldError.
Record t := { field : string; message : Message }.
End FieldError.

(** [ContactApiResponse] *)
Inductive Payload :=
  | Success (message : string) (messageId : option string)
  | Failure (error : string) (code : string)
            (errors : option (list FieldError.t)).

Definition success (p : Payload) : bool :=
  match p with
  | Success _ _ => true
  | Failure _ _ _ => false
  end.

Definition code (p : Payload) : option string :=
  match p with
  | Success _ _ => None
  | Failure _ c _ => Some c
  end.

Module Response.
Record t := {
  status : Z;
  headers : list (string * string);
  body : Payload
}.
End Response.

(** [NextResponse.json(body, init)]; the status is 200 without [init]. *)
Definition json (body : Payload) (status : option Z)
    (headers : list (string * string)) : Response.t :=
  {| Response.status := default 200 status;
     Response.headers := headers;
     Response.body := body |}.

(** The two pieces of state a request touches. *)
Record State := {
  rateLimitMap : gmap string RateLimit.RateLimitRecord;
  calls : list FetchCall.t
}.

(** [issue.path.join('.')] *)
Definition join (path : list string) : string := String.concat "." path.

Section WithLibraries.

Variable isEmail : string -> bool.
Variable generateContactEmailContent :
  SendContactEmailParams.t -> string * string.

(** [POST(request)] *)
Definition POST (w : World) (request : Request.t) (st : State)
  : Response.t * State :=
  let clientIp := ClientIp.getClientIp (Request.headers request) in
  let '(limited, rateLimitMap') :=
    RateLimit.isRateLimited clientIp None (now w) (rateLimitMap st) in
  let st' := {| rateLimitMap := rateLimitMap'; calls := calls st |} in
  if limited then
    (json (Failure "Trop de requêtes. Veuillez réessayer dans une minute."
                   "RATE_LIMIT_EXCEEDED" None)
          (Some 429) [("Retry-After", "60")],
     st')
  else
    match Request.json request with
    | None =>
        (json (Failure "Invalid JSON body" "INVALID_JSON" None)
              (Some 400) [],
         st')
    | Some body =>
        match contactSchema isEmail body with
        | Invalid issues =>
            let errors :=
              map (λ issue, {| FieldError.field := join (Issue.path issue);
                               FieldError.message := Issue.message issue |})
                  issues in
            (json (Failure "Données invalides" "VALIDATION_ERROR"
                           (Some errors))
                  (Some 400) [],
             st')
        | Valid data =>
            if match truthy (honeypot data) with
               | Some h => len h >? 0
               | None => false
               end
            then
              (json (Success "Message envoyé avec succès !" None) None [],
               st')
            else
              match
                sendContactEmail generateContactEmailContent w
                  {| SendContactEmailParams.name := name data;
                     SendContactEmailParams.email := email data;
                     SendContactEmailParams.subject := subject data;
                     SendContactEmailParams.message := Schema.message data;
                     SendContactEmailParams.projectType := projectType data;
                     SendContactEmailParams.budget := budget data |}
                  (calls st')
              with
              | (Ok messageId, calls') =>
                  (json (Success "Message envoyé avec succès !"
                                 (Some messageId)) None [],
                   {| rateLimitMap := rateLimitMap'; calls := calls' |})
              | (Throw _, calls') =>
                  (json (Failure
                           "Une erreur est survenue lors de l'envoi du message."
                           "SERVER_ERROR" None)
                        (Some 500) [],
                   {| rateLimitMap := rateLimitMap'; calls := calls' |})
              end
        end
    end.

(** A sequence of requests handled one after the other. *)
Fixpoint serve (requests : list (World * Request.t)) (st : State)
  : list Response.t * State :=
  match requests with
  | [] => ([], st)
  | (w, request) :: rest =>
      let '(response, st') := POST w request st in
      let '(responses, st'') := serve rest st' in
      (response :: responses, st'')
  end.

End WithLibraries.

End Route.

(* ------------------------------------------------------------------ *)
(** ** Notions used to state the properties *)

Module Props.

Import RateLimit Schema.

(** No record, or a record whose window is over at time [now]: the two
    cases in which the limiter starts a new window. *)
Definition stale (now : Z) (record : option RateLimitRecord) : Prop :=
  match record with
  | None => True
  | Some r => now > resetTime r
  end.

(** Two tables that differ only on entries that are stale at time [ts]. *)
Definition agree (ts : Z) (m1 m2 : gmap string RateLimitRecord) : Prop :=
  ∀ key, m1 !! key = m2 !! key
         ∨ (stale ts (m1 !! key) ∧ stale ts (m2 !! key)).

(** The issues carried by a parse result. *)
Definition issuesOf {A} (p : Parsed A) : list Issue.t :=
  match p with
  | Valid _ => []
  | Invalid issues => issues
  end.

(** A failed parse carries at least one issue. *)
Definition sound {A} (p : Parsed A) : Prop :=
  match p with
  | Invalid [] => False
  | _ => True
  end.

(** The constraints the schema puts on a submission: each of the four
    required texts is there and within its bounds (a valid address, for
    the email), the two optional categories are known ones, and the
    honeypot stays empty. *)
Inductive Constraint :=
  | name_required | name_min | name_max
  | email_required | email_syntax | email_max
  | subject_required | subject_min | subject_max
  | message_required | message_min | message_max
  | projectType_known
  | budget_known
  | honeypot_empty.

Definition constraints : list Constraint :=
  [name_required; name_min; name_max;
   email_required; email_syntax; email_max;
   subject_required; subject_min; subject_max;
   message_required; message_min; message_max;
   projectType_known; budget_known; honeypot_empty].

Definition missing (v : option string) : bool :=
  match v with Some _ => false | None => true end.

Definition shorter (n : Z) (v : option string) : bool :=
  match v with Some s => len s <? n | None => false end.

Definition longer (n : Z) (v : option string) : bool :=
  match v with Some s => n <? len s | None => false end.

Definition unknown (options : list string) (v : option string) : bool :=
  match v with Some s => negb (bool_decide (s ∈ options)) | None => false end.

(** [violated isEmail c body]: the submission [body] breaks constraint [c]. *)
Definition violated (isEmail : string -> bool) (c : Constraint)
    (body : gmap string string) : bool :=
  match c with
  | name_required => missing (body !! "name")
  | name_min => shorter 2 (body !! "name")
  | name_max => longer 100 (body !! "name")
  | email_required => missing (body !! "email")
  | email_syntax =>
      match body !! "email" with Some e => negb (isEmail e) | None => false end
  | email_max => longer 255 (body !! "email")
  | subject_required => missing (body !! "subject")
  | subject_min => shorter 3 (body !! "subject")
  | subject_max => longer 200 (body !! "subject")
  | message_required => missing (body !! "message")
  | message_min => shorter 20 (body !! "message")
  | message_max => longer 5000 (body !! "message")
  | projectType_known => unknown projectTypes (body !! "projectType")
  | budget_known => unknown budgetRanges (body !! "budget")
  | honeypot_empty => longer 0 (body !! "honeypot")
  end.

(** The member a constraint bears on. *)
Definition field (c : Constraint) : string :=
  match c with
  | name_required | name_min | name_max => "name"
  | email_required | email_syntax | email_max => "email"
  | subject_required | subject_min | subject_max => "subject"
  | message_required | message_min | message_max => "message"
  | projectType_known => "projectType"
  | budget_known => "budget"
  | honeypot_empty => "honeypot"
  end.

(** The text reported when a constraint is broken; a missing email is
    reported with the text the schema gives to [z.email]. *)
Definition text (c : Constraint) : Message :=
  match c with
  | name_required | subject_required | message_required =>
      LibraryText invalid_type
  | projectType_known | budget_known => LibraryText invalid_value
  | name_min => Text "Le nom doit contenir au moins 2 caractères"
  | name_max => Text "Le nom ne peut pas dépasser 100 caractères"
  | email_required | email_syntax =>
      Text "Veuillez entrer une adresse email valide"
  | email_max => Text "L'email ne peut pas dépasser 255 caractères"
  | subject_min => Text "Le sujet doit contenir au moins 3 caractères"
  | subject_max => Text "Le sujet ne peut pas dépasser 200 caractères"
  | message_min => Text "Le message doit contenir au moins 20 caractères"
  | message_max => Text "Le message ne peut pas dépasser 5000 caractères"
  | honeypot_empty => Text "Ce champ doit rester vide"
  end.

#[global] Instance Constraint_eq_dec : EqDecision Constraint.
Proof. solve_decision. Defined.

(** The issue the schema raises for a broken constraint. *)
Definition toIssue (c : Constraint) : Issue.t := issue (field c) (text c).

(** The constraints a submission breaks, in the order of the schema. *)
Definition broken (isEmail : string -> bool) (body : gmap string string)
  : list Constraint :=
  List.filter (λ c, violated isEmail c body) constraints.

(** The response of the handler to a client over its quota. *)
Definition tooManyRequests : Route.Response.t :=
  Route.json
    (Route.Failure "Trop de requêtes. Veuillez réessayer dans une minute."
                   "RATE_LIMIT_EXCEEDED" None)
    (Some 429) [("Retry-After", "60")].

(** The response to a body that is not JSON. *)
Definition invalidJson : Route.Response.t :=
  Route.json (Route.Failure "Invalid JSON body" "INVALID_JSON" None)
             (Some 400) [].

(** The response to a body the schema rejects with [errors]. *)
Definition validationError (errors : list Route.FieldError.t)
  : Route.Response.t :=
  Route.json (Route.Failure "Données invalides" "VALIDATION_ERROR"
                            (Some errors))
             (Some 400) [].

(** The process runs in production mode. *)
Definition production (w : Brevo.World) : Prop :=
  Brevo.env w !! "NODE_ENV" = Some "production".

End Props.

(* ------------------------------------------------------------------ *)
(** ** Sample inputs *)

Module Sample.

Import Schema Brevo Route.

Definition render (params : SendContactEmailParams.t) : string * string :=
  ("<p>" +:+ SendContactEmailParams.message params +:+ "</p>",
   SendContactEmailParams.message params).

Definition accepted (call : FetchCall.t) : FetchOutcome :=
  Responded 201 "Created"
    (Some (Value {["messageId" := "<202611020001@smtp-relay>"]})).

Definition productionEnv : gmap string string :=
  list_to_map [("NODE_ENV", "production");
               ("BREVO_API_KEY", "xkeysib-0000");
               ("BREVO_SENDER_EMAIL", "site@example.org")].

Definition prod (now : Z) : World :=
  {| now := now; env := productionEnv; fetch := accepted |}.

Definition dev (now : Z) : World :=
  {| now := now; env := {["NODE_ENV" := "development"]}; fetch := accepted |}.

(** The submission of the specification's first scenario. *)
Definition submission : gmap string string :=
  list_to_map [("name", "Jo"); ("email", "a@b.com");
               ("subject", "Hi there");
               ("message", "xxxxxxxxxxxxxxxxxxxx");
               ("honeypot", "")].

Definition request (body : option (gmap string string)) : Request.t :=
  {| Request.headers := {["x-forwarded-for" := "203.0.113.7, 10.0.0.1"]};
     Request.json := body |}.

Definition start : State := {| rateLimitMap := ∅; calls := [] |}.

(** A table in which the sample client has used up its five requests. *)
Definition exhausted : State :=
  {| rateLimitMap :=
       {["203.0.113.7" := {| RateLimit.count := 5;
                             RateLimit.resetTime := 60000 |}]};
     calls := [] |}.

End Sample.

(* ------------------------------------------------------------------ *)
(** ** services/contact.service.ts and components/contact/contact-form.tsx *)

Module Client.

Import Schema Route.

(** What the browser's [fetch] of [/api/contact] comes back with: a
    rejection, or a response with its status and its body as
    [response.json()] reads it ([None] when the body is not JSON), a body
    that is JSON being of the shape [ContactApiResponse]. *)
Inductive ApiReply :=
  | NoReply
  | Reply (status : Z) (body : option Payload).

(** A response of the route as the browser receives it. *)
Definition deliver (response : Response.t) : ApiReply :=
  Reply (Response.status response) (Some (Response.body response)).

Definition optionalMember (key : string) (v : option string)
  : list (string * string) :=
  match v with
  | Some s => [(key, s)]
  | None => []
  end.

(** [JSON.stringify(data)] as [request.json()] reads it back: the members
    that are [undefined] are left out. *)
Definition toBody (data : ContactFormValues) : gmap string string :=
  list_to_map
    ([("name", name data); ("email", email data);
      ("subject", subject data); ("message", Schema.message data)]
     ++ optionalMember "projectType" (projectType data)
     ++ optionalMember "budget" (budget data)
     ++ optionalMember "honeypot" (honeypot data))%list.

(** [sendContactMessage(data)]; [fetchApi] stands for the network and the
    server behind it. *)
Definition sendContactMessage (fetchApi : gmap string string -> ApiReply)
    (data : ContactFormValues) : Result Payload :=
  match fetchApi (toBody data) with
  | NoReply => Throw RuntimeError
  | Reply status None => Throw RuntimeError
  | Reply status (Some result) =>
      if negb (Brevo.ok status) then
        Throw (Error
          match result with
          | Failure error _ _ =>
              if String.eqb error "" then "Erreur lors de l'envoi" else error
          | Success _ _ => "Erreur lors de l'envoi"
          end)
      else Ok result
  end.

(** The [onBlur] validators of the fields [name], [subject] and
    [message]: the text shown under the field, if any. *)
Definition nameOnBlur (value : string) : option string :=
  if String.eqb value "" || (len value <? 2)
  then Some "Le nom doit contenir au moins 2 caractères" else None.

Definition subjectOnBlur (value : string) : option string :=
  if String.eqb value "" || (len value <? 3)
  then Some "Le sujet doit contenir au moins 3 caractères" else None.

Definition messageOnBlur (value : string) : option string :=
  if String.eqb value "" || (len value <? 20)
  then Some "Le message doit contenir au moins 20 caractères" else None.

Section WithLibrary.

Variable isEmail : string -> bool.

(** The [onSubmit] validator of the form: [undefined] when the schema
    accepts the values, else the record [fieldErrors], filled issue after
    issue under [issue.path[0]]. *)
Definition onSubmit (value : gmap string string)
  : option (gmap string Message) :=
  match contactSchema isEmail value with
  | Valid _ => None
  | Invalid issues =>
      Some (foldl (λ (fieldErrors : gmap string Message) issue,
                     <[default "undefined" (head (Issue.path issue))
                       := Issue.message issue]> fieldErrors)
                  ∅ issues)
  end.

End WithLibrary.

End Client.

(* ------------------------------------------------------------------ *)
(** ** Further notions used to state properties *)

Module Terms.

Import RateLimit Schema.

(** Every record of the table has counted at least one request. *)
Definition counted (m : gmap string RateLimitRecord) : Prop :=
  ∀ key r, m !! key = Some r → 1 <= count r.

(** The keys the calls among [events] were made for. *)
Fixpoint called (events : list Event) : list string :=
  match events with
  | [] => []
  | Call key _ _ :: rest => key :: called rest
  | Sweep _ :: rest => called rest
  end.

(** The events that can touch the record of [key]: the calls made for
    [key] and the sweeps. *)
Definition concerns (key : string) (e : Event) : bool :=
  match e with
  | Call k _ _ => bool_decide (k = key)
  | Sweep _ => true
  end.

(** The answers given to the calls made for [key] while [events] run. *)
Fixpoint answersFor (key : string) (events : list Event)
    (m : gmap string RateLimitRecord) : list bool :=
  match events with
  | [] => []
  | Call k options now :: rest =>
      let '(b, m') := isRateLimited k options now m in
      if bool_decide (k = key) then b :: answersFor key rest m'
      else answersFor key rest m'
  | Sweep now :: rest => answersFor key rest (cleanupRateLimitMap now m)
  end.

(** The quota and the window a call works with. *)
Definition quota (options : option Options) : Z :=
  default DEFAULT_MAX_REQUESTS (options ≫= maxRequests).

Definition window (options : option Options) : Z :=
  default DEFAULT_WINDOW_MS (options ≫= windowMs).

(** Tests on the characters of a string. *)
Definition startsWith (p : ascii -> bool) (s : string) : bool :=
  match s with
  | String c _ => p c
  | EmptyString => false
  end.

Fixpoint endsWith (p : ascii -> bool) (s : string) : bool :=
  match s with
  | String c EmptyString => p c
  | String _ rest => endsWith p rest
  | EmptyString => false
  end.

Fixpoint every (p : ascii -> bool) (s : string) : bool :=
  match s with
  | String c rest => p c && every p rest
  | EmptyString => true
  end.

Definition isComma (c : ascii) : bool := Ascii.eqb c ",".

Definition hasComma (s : string) : bool := negb (every (λ c, negb (isComma c)) s).

(** The entry of the [errors] list for a broken constraint. *)
Definition entry (c : Props.Constraint) : Route.FieldError.t :=
  {| Route.FieldError.field := Props.field c;
     Route.FieldError.message := Props.text c |}.

(** The response of the handler when sending fails. *)
Definition serverError : Route.Response.t :=
  Route.json
    (Route.Failure "Une erreur est survenue lors de l'envoi du message."
                   "SERVER_ERROR" None)
    (Some 500) [].

(** The response of the handler once the mail is handed over. *)
Definition sent (messageId : string) : Route.Response.t :=
  Route.json (Route.Success "Message envoyé avec succès !" (Some messageId))
             None [].

(** The last constraint of a list that bears on member [key]. *)
Definition lastOn (key : string) (cs : list Props.Constraint)
  : option Props.Constraint :=
  last (List.filter (λ c, String.eqb (Props.field c) key) cs).

(** The message that leaves for the provider in production, for a sender
    address [senderEmail] and the parameters of the submission: the
    receiver is [BREVO_RECEIVER_EMAIL] when set, else the sender. *)
Definition envelope (env : gmap string string) (senderEmail : string)
    (content : string * string) (params : Brevo.SendContactEmailParams.t)
  : Brevo.BrevoEmailRequestBody.t :=
  {| Brevo.BrevoEmailRequestBody.sender :=
       {| Brevo.Address.name :=
            default "Portfolio Contact" (truthy (env !! "BREVO_SENDER_NAME"));
          Brevo.Address.email := senderEmail |};
     Brevo.BrevoEmailRequestBody.to :=
       [{| Brevo.Address.email :=
             default senderEmail (truthy (env !! "BREVO_RECEIVER_EMAIL"));
           Brevo.Address.name := "Portfolio Owner" |}];
     Brevo.BrevoEmailRequestBody.replyTo :=
       {| Brevo.Address.email := Brevo.SendContactEmailParams.email params;
          Brevo.Address.name := Brevo.SendContactEmailParams.name params |};
     Brevo.BrevoEmailRequestBody.subject :=
       "[Portfolio] " +:+ Brevo.SendContactEmailParams.subject params;
     Brevo.BrevoEmailRequestBody.htmlContent := content.1;
     Brevo.BrevoEmailRequestBody.textContent := content.2 |}.

(** A reply of the provider that [sendContactEmail] can use: a status
    between 200 and 299 and a JSON body that is not [null]. *)
Definition usable (outcome : Brevo.FetchOutcome) : bool :=
  match outcome with
  | Brevo.Responded status _ (Some (Brevo.Value _)) => Brevo.ok status
  | _ => false
  end.

(** The parameters the handler passes to [sendContactEmail]. *)
Definition paramsOf (data : ContactFormValues)
  : Brevo.SendContactEmailParams.t :=
  {| Brevo.SendContactEmailParams.name := name data;
     Brevo.SendContactEmailParams.email := email data;
     Brevo.SendContactEmailParams.subject := subject data;
     Brevo.SendContactEmailParams.message := Schema.message data;
     Brevo.SendContactEmailParams.projectType := projectType data;
     Brevo.SendContactEmailParams.budget := budget data |}.

End Terms.

(* ------------------------------------------------------------------ *)
(** ** The rate limiter *)

Section RateLimitFacts.

Import RateLimit Props.

Implicit Types (m : gmap string RateLimitRecord) (r : RateLimitRecord).

Lemma expired_true now r : expired now r = true ↔ now > resetTime r.
Proof.
  unfold expired.
  destruct (Z.gtb_spec now (resetTime r)); split; (lia || easy).
Qed.

Lemma expired_false now r : expired now r = false ↔ now <= resetTime r.
Proof.
  unfold expired.
  destruct (Z.gtb_spec now (resetTime r)); split; (lia || easy).
Qed.

(** A new window opens on a stale entry. *)
Lemma isRateLimited_stale key options now m :
  stale now (m !! key) →
  isRateLimited key options now m =
    (false,
     <[key := {| count := 1;
                 resetTime := now + default 60000 (options ≫= windowMs) |}]> m).
Proof.
  unfold isRateLimited, stale. destruct (m !! key) as [r|]; [|done].
  intros H. apply expired_true in H. by rewrite H.
Qed.

(** Inside the window the counter moves up by one. *)
Lemma isRateLimited_live key options now m r :
  m !! key = Some r → now <= resetTime r →
  isRateLimited key options now m =
    (count r + 1 >? default 5 (options ≫= maxRequests),
     <[key := {| count := count r + 1; resetTime := resetTime r |}]> m).
Proof.
  unfold isRateLimited. intros -> H. apply expired_false in H. by rewrite H.
Qed.

Lemma stale_or_live now (o : option RateLimitRecord) :
  stale now o ∨ ∃ r, o = Some r ∧ now <= resetTime r.
Proof.
  destruct o as [r|]; [|by left]. simpl.
  destruct (Z_gt_le_dec now (resetTime r)); [by left|right; eauto].
Qed.

(** C1: the two branches of [isRateLimited] and its defaults. *)
Theorem isRateLimited_spec key options now m :
  (stale now (m !! key) →
     isRateLimited key options now m =
       (false,
        <[key := {| count := 1;
                    resetTime := now + default 60000 (options ≫= windowMs) |}]>
          m))
  ∧ (∀ r, m !! key = Some r → ¬ now > resetTime r →
       isRateLimited key options now m =
         (bool_decide (count r + 1 > default 5 (options ≫= maxRequests)),
          <[key := {| count := count r + 1; resetTime := resetTime r |}]> m))
  ∧ DEFAULT_MAX_REQUESTS = 5 ∧ DEFAULT_WINDOW_MS = 60000.
Proof.
  split; [apply isRateLimited_stale|]. split; [|done].
  intros r Hr Hlive. rewrite (isRateLimited_live _ _ _ _ r) by (done || lia).
  f_equal.
  destruct (Z.gtb_spec (count r + 1) (default 5 (options ≫= maxRequests)));
    [by rewrite bool_decide_eq_true_2 by lia
    |by rewrite bool_decide_eq_false_2 by lia].
Qed.

Lemma isRateLimited_spec_witness :
  isRateLimited "203.0.113.7" None 1000 ∅ =
    (false, <["203.0.113.7" := {| count := 1; resetTime := 61000 |}]> ∅)
  ∧ isRateLimited "203.0.113.7" None 2000
      (<["203.0.113.7" := {| count := 5; resetTime := 61000 |}]> ∅) =
    (true,
     <["203.0.113.7" := {| count := 6; resetTime := 61000 |}]>
       (<["203.0.113.7" := {| count := 5; resetTime := 61000 |}]> ∅)).
Proof.
  split.
  - apply (proj1 (isRateLimited_spec "203.0.113.7" None 1000 ∅)). exact I.
  - apply (proj1 (proj2 (isRateLimited_spec "203.0.113.7" None 2000
             (<["203.0.113.7" := {| count := 5; resetTime := 61000 |}]> ∅)))
             {| count := 5; resetTime := 61000 |}).
    + reflexivity.
    + simpl. lia.
Defined.

(** C10: on a stale entry the answer is "not limited" for every
    [maxRequests], zero included, and the stored count is 1. *)
Theorem stale_entry_never_limited key options now m :
  stale now (m !! key) →
  (isRateLimited key options now m).1 = false
  ∧ count <$> (isRateLimited key options now m).2 !! key = Some 1.
Proof.
  intros H. rewrite isRateLimited_stale by done. simpl.
  by rewrite lookup_insert_eq.
Qed.

Lemma stale_entry_never_limited_witness :
  (isRateLimited "203.0.113.7"
     (Some {| maxRequests := Some 0; windowMs := None |}) 1000
     (<["203.0.113.7" := {| count := 9; resetTime := 999 |}]> ∅)).1 = false.
Proof.
  apply (stale_entry_never_limited "203.0.113.7"
           (Some {| maxRequests := Some 0; windowMs := None |}) 1000
           (<["203.0.113.7" := {| count := 9; resetTime := 999 |}]> ∅)).
  vm_compute. reflexivity.
Defined.

Lemma cleanup_lookup ts m key :
  cleanupRateLimitMap ts m !! key =
    match m !! key with
    | Some r => if expired ts r then None else Some r
    | None => None
    end.
Proof.
  unfold cleanupRateLimitMap. rewrite map_lookup_filter.
  destruct (m !! key) as [r|]; simpl; [|done].
  by destruct (expired ts r).
Qed.

Lemma agree_refl ts m : agree ts m m.
Proof. intros key. by left. Qed.

Lemma agree_cleanup ts m : agree ts (cleanupRateLimitMap ts m) m.
Proof.
  intros key. rewrite cleanup_lookup.
  destruct (m !! key) as [r|] eqn:Hr; [|by left].
  destruct (expired ts r) eqn:He; [|by left].
  right. split; [done|]. simpl. by apply expired_true.
Qed.

Lemma agree_sweep ts t m1 m2 :
  agree ts m1 m2 →
  agree ts (cleanupRateLimitMap t m1) (cleanupRateLimitMap t m2).
Proof.
  intros H key. rewrite !cleanup_lookup.
  destruct (H key) as [->|[H1 H2]]; [by left|]. right. split.
  - destruct (m1 !! key) as [r|]; [|done]. by destruct (expired t r).
  - destruct (m2 !! key) as [r|]; [|done]. by destruct (expired t r).
Qed.

Lemma stale_mono ts now (o : option RateLimitRecord) :
  ts <= now → stale ts o → stale now o.
Proof. destruct o as [r|]; simpl; [lia|done]. Qed.

Lemma agree_insert ts m1 m2 key r :
  agree ts m1 m2 → agree ts (<[key := r]> m1) (<[key := r]> m2).
Proof.
  intros H k. destruct (decide (key = k)) as [->|Hne].
  - left. by rewrite !lookup_insert_eq.
  - rewrite !lookup_insert_ne by done. apply H.
Qed.

(** On tables that agree up to entries stale at [ts], a call made at [ts]
    or later answers the same and keeps the tables in agreement. *)
Lemma agree_isRateLimited ts m1 m2 key options now :
  agree ts m1 m2 → ts <= now →
  (isRateLimited key options now m1).1 = (isRateLimited key options now m2).1
  ∧ agree ts (isRateLimited key options now m1).2
             (isRateLimited key options now m2).2.
Proof.
  intros H Hle. destruct (H key) as [Heq|[H1 H2]].
  - unfold isRateLimited. rewrite Heq.
    destruct (m2 !! key) as [r|]; [destruct (expired now r)|]; simpl;
      (split; [done|by apply agree_insert]).
  - rewrite !isRateLimited_stale by eauto using stale_mono. simpl.
    split; [done|by apply agree_insert].
Qed.

Lemma run_agree ts events m1 m2 :
  agree ts m1 m2 →
  Forall (λ e, ts <= eventTime e) events →
  (run events m1).1 = (run events m2).1.
Proof.
  revert m1 m2. induction events as [|e events IH]; intros m1 m2 H Hall;
    [done|].
  inversion Hall as [|? ? He Hrest]; subst.
  destruct e as [key options now|t]; simpl in *.
  - destruct (agree_isRateLimited ts m1 m2 key options now H He) as [Hb Hm].
    destruct (isRateLimited key options now m1) as [b1 m1'].
    destruct (isRateLimited key options now m2) as [b2 m2'].
    simpl in *. subst b2. specialize (IH m1' m2' Hm Hrest).
    destruct (run events m1'), (run events m2'). simpl in *. by subst.
  - apply IH; [by apply agree_sweep|done].
Qed.

(** C7: a sweep at time [ts] drops only entries whose window is over, a
    call treats such an entry like a missing one, and so all calls that
    come after the sweep answer as if it had not run. *)
Theorem sweep_is_transparent ts events m :
  Forall (λ e, ts <= eventTime e) events →
  (run events (cleanupRateLimitMap ts m)).1 = (run events m).1
  ∧ (∀ key, cleanupRateLimitMap ts m !! key = m !! key
            ∨ (cleanupRateLimitMap ts m !! key = None
               ∧ ∃ r, m !! key = Some r ∧ ts > resetTime r))
  ∧ (∀ key options now r, m !! key = Some r → now > resetTime r →
       isRateLimited key options now m =
       isRateLimited key options now (delete key m)).
Proof.
  intros Hall. split; [|split].
  - apply (run_agree ts); [apply agree_cleanup|done].
  - intros key. rewrite cleanup_lookup.
    destruct (m !! key) as [r|] eqn:Hr; [|by left].
    destruct (expired ts r) eqn:He; [|by left].
    right. split; [done|]. exists r. split; [done|]. by apply expired_true.
  - intros key options now r Hr Hexp.
    rewrite (isRateLimited_stale key options now m) by (by rewrite Hr).
    rewrite (isRateLimited_stale key options now (delete key m))
      by (by rewrite lookup_delete_eq).
    by rewrite insert_delete_eq.
Qed.

Lemma sweep_is_transparent_witness :
  (run [Call "203.0.113.7" None 400000; Call "203.0.113.7" None 400001]
       (cleanupRateLimitMap 300000
          (<["203.0.113.7" := {| count := 5; resetTime := 61000 |}]> ∅))).1
  = (run [Call "203.0.113.7" None 400000; Call "203.0.113.7" None 400001]
         (<["203.0.113.7" := {| count := 5; resetTime := 61000 |}]> ∅)).1.
Proof.
  apply (sweep_is_transparent 300000
           [Call "203.0.113.7" None 400000; Call "203.0.113.7" None 400001]
           (<["203.0.113.7" := {| count := 5; resetTime := 61000 |}]> ∅)).
  repeat constructor; simpl; lia.
Defined.

(** Inside one window the [i]-th call after a record with count [c] is
    refused exactly when [c + i] goes beyond five. *)
Lemma window_answers key (ts : list Z) m r :
  m !! key = Some r →
  Forall (λ t, t <= resetTime r) ts →
  (run (map (Call key None) ts) m).1 =
    map (λ i : nat, count r + Z.of_nat i >? 5) (seq 1 (length ts)).
Proof.
  revert m r. induction ts as [|t ts IH]; intros m r Hr Hall; [done|].
  inversion Hall as [|? ? Ht Hrest]; subst. simpl.
  rewrite (isRateLimited_live key None t m r) by done.
  specialize (IH (<[key := {| count := count r + 1;
                              resetTime := resetTime r |}]> m)
                 {| count := count r + 1; resetTime := resetTime r |}).
  rewrite lookup_insert_eq in IH. specialize (IH eq_refl Hrest).
  destruct (run (map (Call key None) ts) _) as [bs m'']. simpl in *.
  f_equal. rewrite IH, <- (seq_shift (length ts) 1), map_map.
  apply map_ext. intros i. simpl. f_equal. lia.
Qed.

(** From a stale entry: the calls of one window, the first of them made at
    [t0], are answered "limited" from the sixth on. *)
Lemma window_answers_fresh key t0 (ts : list Z) m :
  stale t0 (m !! key) →
  Forall (λ t, t <= t0 + 60000) ts →
  (run (map (Call key None) (t0 :: ts)) m).1 =
    map (λ i : nat, bool_decide (5 < i)%nat) (seq 1 (S (length ts))).
Proof.
  intros Hstale Hall. cbn [map run seq].
  rewrite isRateLimited_stale by done. simpl.
  pose proof (window_answers key ts
    (<[key := {| count := 1; resetTime := t0 + 60000 |}]> m)
    {| count := 1; resetTime := t0 + 60000 |}) as H.
  rewrite lookup_insert_eq in H. specialize (H eq_refl Hall).
  destruct (run (map (Call key None) ts) _) as [bs m'']. simpl in *.
  f_equal. rewrite H, <- (seq_shift (length ts) 1), map_map.
  apply map_ext. intros i. simpl.
  destruct (Z.gtb_spec (1 + Z.of_nat i) 5);
    [by rewrite bool_decide_eq_true_2 by lia
    |by rewrite bool_decide_eq_false_2 by lia].
Qed.

End RateLimitFacts.

(* ------------------------------------------------------------------ *)
(** ** The schema *)

Section SchemaFacts.

Import Schema Props.

Variable isEmail : string -> bool.

#[local] Abbreviation broken := (broken isEmail).

Lemma issuesOf_andThen {A B} (acc : Parsed (A -> B)) (member : Parsed A) :
  issuesOf (andThen acc member) = (issuesOf acc ++ issuesOf member)%list.
Proof.
  destruct acc, member; simpl; by rewrite ?app_nil_r.
Qed.

Lemma sound_andThen {A B} (acc : Parsed (A -> B)) (member : Parsed A) :
  sound acc → sound member → sound (andThen acc member).
Proof.
  destruct acc as [f|[|i il]], member as [a|[|j jl]]; simpl; done.
Qed.

Lemma sound_zString checks key input :
  sound (zString isEmail checks key input).
Proof.
  unfold zString. destruct input; [|done].
  by destruct (flat_map _ checks).
Qed.

Lemma sound_zEmail error checks key input :
  sound (zEmail isEmail error checks key input).
Proof.
  unfold zEmail. destruct input; [|done].
  by destruct (flat_map _ (_ :: checks)).
Qed.

Lemma issuesOf_zEmail error checks key s :
  issuesOf (zEmail isEmail error checks key (Some s)) =
  flat_map (runCheck isEmail key s) (email_format error :: checks).
Proof. unfold zEmail. by destruct (flat_map _ (_ :: checks)). Qed.

Lemma sound_zEnum options key input : sound (zEnum options key input).
Proof. unfold zEnum. destruct input; [|done]. by case_bool_decide. Qed.

Lemma sound_optional {A} (inner : string -> option string -> Parsed A)
    key input :
  (∀ k v, sound (inner k v)) → sound (optional inner key input).
Proof.
  intros H. unfold optional. destruct input as [s|]; [|done].
  specialize (H key (Some s)). by destruct (inner key (Some s)) as [|[|]].
Qed.

Lemma issuesOf_optional {A} (inner : string -> option string -> Parsed A)
    key s :
  issuesOf (optional inner key (Some s)) = issuesOf (inner key (Some s)).
Proof. unfold optional. by destruct (inner key (Some s)). Qed.

Lemma issuesOf_zString checks key s :
  issuesOf (zString isEmail checks key (Some s)) =
  flat_map (runCheck isEmail key s) checks.
Proof. unfold zString. by destruct (flat_map _ checks). Qed.

Lemma sound_contactSchema body : sound (contactSchema isEmail body).
Proof.
  unfold contactSchema.
  repeat apply sound_andThen.
  - exact I.
  - apply sound_zString.
  - apply sound_zEmail.
  - apply sound_zString.
  - apply sound_zString.
  - apply sound_optional. intros. apply sound_zEnum.
  - apply sound_optional. intros. apply sound_zEnum.
  - apply sound_optional. intros. apply sound_zString.
Qed.

(** The schema reports exactly the broken constraints, in its own order,
    each with its member name and its text. *)
Lemma issuesOf_contactSchema body :
  issuesOf (contactSchema isEmail body) = map toIssue (broken body).
Proof.
  unfold contactSchema, Props.broken. rewrite !issuesOf_andThen.
  simpl issuesOf at 1.
  change constraints with
    ([name_required; name_min; name_max]
     ++ [email_required; email_syntax; email_max]
     ++ [subject_required; subject_min; subject_max]
     ++ [message_required; message_min; message_max]
     ++ [projectType_known] ++ [budget_known] ++ [honeypot_empty])%list.
  rewrite !List.filter_app, !map_app, <- !app_assoc, app_nil_l.
  repeat apply (f_equal2 app).
  - cbn [List.filter violated]. destruct (body !! "name") as [s|]; [|done].
    rewrite issuesOf_zString. cbn [flat_map runCheck missing shorter longer].
    by destruct (len s <? 2), (100 <? len s).
  - cbn [List.filter violated]. destruct (body !! "email") as [s|]; [|done].
    rewrite issuesOf_zEmail. cbn [flat_map runCheck missing shorter longer].
    by destruct (isEmail s), (255 <? len s).
  - cbn [List.filter violated]. destruct (body !! "subject") as [s|]; [|done].
    rewrite issuesOf_zString. cbn [flat_map runCheck missing shorter longer].
    by destruct (len s <? 3), (200 <? len s).
  - cbn [List.filter violated]. destruct (body !! "message") as [s|]; [|done].
    rewrite issuesOf_zString. cbn [flat_map runCheck missing shorter longer].
    by destruct (len s <? 20), (5000 <? len s).
  - cbn [List.filter violated].
    destruct (body !! "projectType") as [s|]; [|done].
    rewrite issuesOf_optional. unfold zEnum, unknown.
    by destruct (bool_decide (s ∈ projectTypes)).
  - cbn [List.filter violated].
    destruct (body !! "budget") as [s|]; [|done].
    rewrite issuesOf_optional. unfold zEnum, unknown.
    by destruct (bool_decide (s ∈ budgetRanges)).
  - cbn [List.filter violated].
    destruct (body !! "honeypot") as [s|]; [|done].
    rewrite issuesOf_optional, issuesOf_zString.
    cbn [flat_map runCheck longer].
    by destruct (0 <? len s).
Qed.

Lemma contactSchema_invalid body c cs :
  broken body = c :: cs →
  contactSchema isEmail body = Invalid (map toIssue (c :: cs)).
Proof.
  intros H. pose proof (issuesOf_contactSchema body) as Hi.
  rewrite H in Hi.
  destruct (contactSchema isEmail body) as [data|issues]; simpl in Hi;
    [done|by subst].
Qed.

Lemma contactSchema_valid body :
  broken body = [] → ∃ data, contactSchema isEmail body = Valid data.
Proof.
  intros H. pose proof (issuesOf_contactSchema body) as Hi.
  pose proof (sound_contactSchema body) as Hs. rewrite H in Hi.
  destruct (contactSchema isEmail body) as [data|issues]; [by eexists|].
  simpl in Hi. by subst.
Qed.

Lemma andThen_Valid {A B} (acc : Parsed (A -> B)) (member : Parsed A) b :
  andThen acc member = Valid b →
  ∃ f a, acc = Valid f ∧ member = Valid a ∧ b = f a.
Proof.
  destruct acc as [f|], member as [a|]; simpl; try done.
  intros [= <-]. eauto.
Qed.

(** Accepted values never carry a filled honeypot. *)
Lemma contactSchema_honeypot body data :
  contactSchema isEmail body = Valid data → truthy (honeypot data) = None.
Proof.
  unfold contactSchema. intros H.
  apply andThen_Valid in H as (f6 & h & H & Hh & ->).
  apply andThen_Valid in H as (f5 & b & H & _ & ->).
  apply andThen_Valid in H as (f4 & p & H & _ & ->).
  apply andThen_Valid in H as (f3 & m & H & _ & ->).
  apply andThen_Valid in H as (f2 & s & H & _ & ->).
  apply andThen_Valid in H as (f1 & e & H & _ & ->).
  apply andThen_Valid in H as (f0 & n & H & _ & ->).
  injection H as <-. simpl. clear n e s m p b.
  unfold optional in Hh. destruct (body !! "honeypot") as [s|].
  - unfold zString in Hh. cbn [flat_map runCheck app] in Hh.
    destruct (0 <? len s) eqn:E; simpl in Hh; [done|]. injection Hh as <-.
    destruct s as [|c s]; [done|].
    apply Z.ltb_ge in E. unfold len in E. simpl String.length in E. lia.
  - by injection Hh as <-.
Qed.

Lemma filter_unique {A} (f : A -> bool) (l : list A) (c : A) :
  NoDup l → c ∈ l → f c = true → (∀ c', f c' = true → c' = c) →
  List.filter f l = [c].
Proof.
  intros Hnd Hin Hc Huniq.
  assert (Hnone : ∀ l', c ∉ l' → List.filter f l' = []).
  { induction l' as [|x l' IH]; intros Hx; [done|]. simpl.
    destruct (f x) eqn:Hfx.
    - apply Huniq in Hfx. subst. exfalso. apply Hx. by left.
    - apply IH. intros ?. apply Hx. by right. }
  induction Hnd as [|x l Hx Hnd IH]; [by apply elem_of_nil in Hin|].
  simpl. apply elem_of_cons in Hin as [<-|Hin].
  - rewrite Hc. f_equal. by apply Hnone.
  - destruct (f x) eqn:Hfx.
    + apply Huniq in Hfx. by subst.
    + by apply IH.
Qed.

Lemma NoDup_constraints : NoDup constraints.
Proof. compute_done. Qed.

Lemma elem_of_constraints c : c ∈ constraints.
Proof. destruct c; compute_done. Qed.

Lemma broken_unique body c :
  violated isEmail c body = true →
  (∀ c', violated isEmail c' body = true → c' = c) →
  broken body = [c].
Proof.
  intros. apply filter_unique;
    auto using NoDup_constraints, elem_of_constraints.
Qed.

Lemma broken_none body :
  (∀ c, violated isEmail c body = false) → broken body = [].
Proof.
  intros H. unfold Props.broken.
  induction constraints as [|c l IH]; [done|]. simpl. by rewrite H.
Qed.

End SchemaFacts.

(* ------------------------------------------------------------------ *)
(** ** The mail transport *)

Section BrevoFacts.

Import Brevo Props.

Variable generateContactEmailContent :
  SendContactEmailParams.t -> string * string.

#[local] Abbreviation sendContactEmail :=
  (sendContactEmail generateContactEmailContent).

Lemma sendBrevoEmail_no_key w requestBody calls :
  truthy (env w !! "BREVO_API_KEY") = None →
  sendBrevoEmail w requestBody calls =
    (Throw (Error "BREVO_API_KEY is not defined in environment variables"),
     calls).
Proof. unfold sendBrevoEmail. by intros ->. Qed.

(** With a key, exactly one request leaves, whatever comes back. *)
Lemma sendBrevoEmail_key w requestBody calls apiKey :
  truthy (env w !! "BREVO_API_KEY") = Some apiKey →
  (sendBrevoEmail w requestBody calls).2 =
    (calls ++ [{| FetchCall.url := BREVO_API_URL;
                  FetchCall.apiKey := apiKey;
                  FetchCall.body := requestBody |}])%list.
Proof.
  unfold sendBrevoEmail. intros ->.
  destruct (fetch w _) as [|status statusText body]; [done|].
  destruct (negb (ok status)); [|by destruct body].
  by destruct (default _ body).
Qed.

(** An answer of [sendBrevoEmail] means one request left. *)
Lemma sendBrevoEmail_Ok w requestBody calls data calls' :
  sendBrevoEmail w requestBody calls = (Ok data, calls') →
  ∃ call, calls' = (calls ++ [call])%list.
Proof.
  intros H. destruct (truthy (env w !! "BREVO_API_KEY")) as [k|] eqn:Hk.
  - pose proof (sendBrevoEmail_key w requestBody calls k Hk) as H2.
    rewrite H in H2. simpl in H2. eauto.
  - by rewrite sendBrevoEmail_no_key in H.
Qed.

Lemma sendContactEmail_bypass w params calls :
  ¬ production w →
  sendContactEmail w params calls = (Ok "dev-console", calls).
Proof.
  intros H. unfold Brevo.sendContactEmail.
  by rewrite bool_decide_eq_true_2.
Qed.

Lemma sendContactEmail_no_sender w params calls :
  production w →
  truthy (env w !! "BREVO_SENDER_EMAIL") = None →
  sendContactEmail w params calls =
    (Throw (Error "BREVO_SENDER_EMAIL is not defined in environment variables"),
     calls).
Proof.
  intros H Hs. unfold Brevo.sendContactEmail.
  rewrite bool_decide_eq_false_2 by (intros ?; contradiction).
  by rewrite Hs.
Qed.

(** A receiver is always found once the sender address is set, so the
    error about the receiver is never raised. *)
Lemma truthy_orElse (a b : option string) s :
  truthy b = Some s → ∃ s', truthy (orElse a b) = Some s'.
Proof.
  intros Hb. unfold orElse. destruct (truthy a) as [sa|] eqn:Ha; eauto.
Qed.

Lemma sendContactEmail_no_key w params calls :
  production w →
  truthy (env w !! "BREVO_API_KEY") = None →
  sendContactEmail w params calls =
    (Throw (Error
       match truthy (env w !! "BREVO_SENDER_EMAIL") with
       | None => "BREVO_SENDER_EMAIL is not defined in environment variables"
       | Some _ => "BREVO_API_KEY is not defined in environment variables"
       end),
     calls).
Proof.
  intros H Hk. unfold Brevo.sendContactEmail.
  rewrite bool_decide_eq_false_2 by (intros ?; contradiction).
  destruct (truthy (env w !! "BREVO_SENDER_EMAIL")) as [sender|] eqn:Hs;
    [|done].
  destruct (truthy_orElse (env w !! "BREVO_RECEIVER_EMAIL") _ _ Hs)
    as [receiver ->].
  destruct (generateContactEmailContent params) as [html text].
  by rewrite sendBrevoEmail_no_key.
Qed.

(** In production an answer of [sendContactEmail] means that exactly one
    request left for the provider. *)
Lemma sendContactEmail_Ok_production w params calls messageId calls' :
  production w →
  sendContactEmail w params calls = (Ok messageId, calls') →
  ∃ call, calls' = (calls ++ [call])%list.
Proof.
  intros H. unfold Brevo.sendContactEmail.
  rewrite bool_decide_eq_false_2 by (intros ?; contradiction).
  destruct (truthy (env w !! "BREVO_SENDER_EMAIL")); [|done].
  destruct (truthy (orElse _ _)); [|done].
  destruct (generateContactEmailContent params) as [html text].
  destruct (sendBrevoEmail w _ calls) as [[data|e] calls''] eqn:Hsend; [|done].
  destruct (Brevo.messageId data); [|done].
  intros [= _ <-]. by eapply sendBrevoEmail_Ok.
Qed.

(** C6, amended: without the API key [sendBrevoEmail] throws before any
    request leaves, and so does [sendContactEmail] in production, as it
    does without a sender address; outside production [sendContactEmail]
    answers the placeholder identifier whatever the configuration. *)
Theorem missing_configuration_fails_in_production w params calls :
  (∀ requestBody,
     truthy (env w !! "BREVO_API_KEY") = None →
     sendBrevoEmail w requestBody calls =
       (Throw (Error "BREVO_API_KEY is not defined in environment variables"),
        calls))
  ∧ (production w → truthy (env w !! "BREVO_API_KEY") = None →
     sendContactEmail w params calls =
       (Throw (Error
          match truthy (env w !! "BREVO_SENDER_EMAIL") with
          | None =>
              "BREVO_SENDER_EMAIL is not defined in environment variables"
          | Some _ => "BREVO_API_KEY is not defined in environment variables"
          end),
        calls))
  ∧ (production w → truthy (env w !! "BREVO_SENDER_EMAIL") = None →
     sendContactEmail w params calls =
       (Throw (Error
          "BREVO_SENDER_EMAIL is not defined in environment variables"),
        calls))
  ∧ (¬ production w →
     sendContactEmail w params calls = (Ok "dev-console", calls)).
Proof.
  repeat split.
  - intros. by apply sendBrevoEmail_no_key.
  - by apply sendContactEmail_no_key.
  - by apply sendContactEmail_no_sender.
  - by apply sendContactEmail_bypass.
Qed.

End BrevoFacts.

(* ------------------------------------------------------------------ *)
(** ** The POST handler *)

Section RouteFacts.

Import RateLimit Schema Brevo Route Props.

Variable isEmail : string -> bool.
Variable generateContactEmailContent :
  SendContactEmailParams.t -> string * string.

#[local] Abbreviation POST := (POST isEmail generateContactEmailContent).
#[local] Abbreviation serve := (serve isEmail generateContactEmailContent).

Implicit Types (w : World) (request : Request.t) (st : State).

(** The call of the limiter a request gives rise to. *)
#[local] Abbreviation check w request st :=
  (isRateLimited (ClientIp.getClientIp (Request.headers request)) None
                 (now w) (rateLimitMap st)).

Lemma POST_rateLimitMap w request st :
  rateLimitMap (POST w request st).2 = (check w request st).2.
Proof.
  unfold Route.POST. destruct (check w request st) as [[] m']; [done|].
  destruct (Request.json request) as [body|]; [|done].
  destruct (contactSchema isEmail body) as [data|issues]; [|done].
  destruct (match truthy (honeypot data) with Some _ => _ | None => _ end);
    [done|].
  by destruct (sendContactEmail _ _ _ _) as [[id|e] calls'].
Qed.

Lemma POST_limited w request st :
  (check w request st).1 = true →
  POST w request st =
    (tooManyRequests,
     {| rateLimitMap := (check w request st).2; calls := calls st |}).
Proof.
  unfold Route.POST. destruct (check w request st) as [b m']. simpl.
  by intros ->.
Qed.

Lemma POST_invalid_json w request st :
  (check w request st).1 = false →
  Request.json request = None →
  POST w request st =
    (invalidJson,
     {| rateLimitMap := (check w request st).2; calls := calls st |}).
Proof.
  unfold Route.POST. destruct (check w request st) as [b m']. simpl.
  by intros -> ->.
Qed.

Lemma POST_invalid w request st body issues :
  (check w request st).1 = false →
  Request.json request = Some body →
  contactSchema isEmail body = Invalid issues →
  POST w request st =
    (validationError
       (map (λ issue, {| FieldError.field := join (Issue.path issue);
                         FieldError.message := Issue.message issue |})
            issues),
     {| rateLimitMap := (check w request st).2; calls := calls st |}).
Proof.
  unfold Route.POST. destruct (check w request st) as [b m']. simpl.
  by intros -> -> ->.
Qed.

(** Once the values are accepted the mail is handed to the transport: the
    honeypot branch is never taken. *)
Lemma POST_valid w request st body data :
  (check w request st).1 = false →
  Request.json request = Some body →
  contactSchema isEmail body = Valid data →
  POST w request st =
    match
      sendContactEmail generateContactEmailContent w
        {| SendContactEmailParams.name := name data;
           SendContactEmailParams.email := email data;
           SendContactEmailParams.subject := subject data;
           SendContactEmailParams.message := Schema.message data;
           SendContactEmailParams.projectType := projectType data;
           SendContactEmailParams.budget := budget data |}
        (calls st)
    with
    | (Ok messageId, calls') =>
        (json (Success "Message envoyé avec succès !" (Some messageId))
              None [],
         {| rateLimitMap := (check w request st).2; calls := calls' |})
    | (Throw _, calls') =>
        (json (Failure "Une erreur est survenue lors de l'envoi du message."
                       "SERVER_ERROR" None)
              (Some 500) [],
         {| rateLimitMap := (check w request st).2; calls := calls' |})
    end.
Proof.
  unfold Route.POST. destruct (check w request st) as [b m']. simpl.
  intros -> -> Hv. rewrite Hv.
  by rewrite (contactSchema_honeypot isEmail body data Hv).
Qed.

(** The cases of the handler, for case analysis on a request. *)
Lemma POST_cases w request st :
  (check w request st).1 = true
  ∨ ((check w request st).1 = false ∧ Request.json request = None)
  ∨ (∃ body issues,
       (check w request st).1 = false ∧ Request.json request = Some body
       ∧ contactSchema isEmail body = Invalid issues)
  ∨ (∃ body data,
       (check w request st).1 = false ∧ Request.json request = Some body
       ∧ contactSchema isEmail body = Valid data).
Proof.
  destruct (check w request st).1; [by left|right].
  destruct (Request.json request) as [body|]; [right|by left].
  destruct (contactSchema isEmail body) as [data|issues] eqn:?;
    [right|left]; eauto 6.
Qed.

(** Only the quota answer carries status 429. *)
Lemma POST_admitted w request st :
  (check w request st).1 = false →
  Response.status (POST w request st).1 ≠ 429
  ∧ code (Response.body (POST w request st).1) ≠ Some "RATE_LIMIT_EXCEEDED".
Proof.
  intros Hc.
  destruct (POST_cases w request st)
    as [H|[[_ H]|[(body & issues & _ & Hj & Hs)|(body & data & _ & Hj & Hs)]]].
  - congruence.
  - by rewrite POST_invalid_json.
  - by rewrite (POST_invalid _ _ _ body issues).
  - rewrite (POST_valid _ _ _ body data) by done.
    by destruct (sendContactEmail _ _ _ _) as [[id|e] calls'].
Qed.

(** A body with a filled honeypot is turned down by the schema, with an
    entry for the honeypot among the errors, and no mail leaves. *)
Lemma POST_honeypot w request st body :
  (check w request st).1 = false →
  Request.json request = Some body →
  longer 0 (body !! "honeypot") = true →
  ∃ errors,
    (POST w request st).1 = validationError errors
    ∧ {| FieldError.field := "honeypot";
         FieldError.message := Text "Ce champ doit rester vide" |} ∈ errors
    ∧ calls (POST w request st).2 = calls st.
Proof.
  intros Hc Hj Hh.
  assert (Hin : honeypot_empty ∈ broken isEmail body).
  { apply list_elem_of_In, List.filter_In. split; [|done].
    apply list_elem_of_In, elem_of_constraints. }
  destruct (broken isEmail body) as [|c cs] eqn:Hb;
    [by apply elem_of_nil in Hin|].
  rewrite (POST_invalid _ _ _ body _ Hc Hj
             (contactSchema_invalid isEmail body c cs Hb)).
  eexists. split; [done|]. split; [|done].
  rewrite map_map. apply list_elem_of_In, in_map_iff.
  exists honeypot_empty. split; [done|]. by apply list_elem_of_In.
Qed.

(** The requests of one client inside one window, as calls of the
    limiter. *)
Lemma serve_limits ip requests st :
  Forall (λ wr : World * Request.t,
            ClientIp.getClientIp (Request.headers wr.2) = ip) requests →
  ∀ answers,
    (run (map (λ wr : World * Request.t, Call ip None (now wr.1)) requests)
         (rateLimitMap st)).1 = answers →
  Forall2 (λ (limited : bool) response,
             if limited then response = tooManyRequests
             else Response.status response ≠ 429
                  ∧ code (Response.body response)
                    ≠ Some "RATE_LIMIT_EXCEEDED")
          answers (serve requests st).1.
Proof.
  revert st. induction requests as [|[w request] requests IH];
    intros st Hall answers Hrun.
  { simpl in Hrun. subst. constructor. }
  apply Forall_cons in Hall as [Hip Hrest]. simpl in Hip. subst ip.
  cbn [Route.serve map run] in *. simpl in Hrun.
  pose proof (POST_rateLimitMap w request st) as Hm.
  pose proof (POST_limited w request st) as Hl.
  pose proof (POST_admitted w request st) as Ha.
  destruct (isRateLimited _ None (now w) (rateLimitMap st)) as [b m'].
  destruct (POST w request st) as [response st']. simpl in *. subst m'.
  specialize (IH st' Hrest _ eq_refl).
  destruct (run _ (rateLimitMap st')) as [bs m''].
  destruct (serve requests st') as [responses st'']. simpl in *. subst.
  constructor; [|done].
  destruct b; [by injection (Hl eq_refl)|by apply Ha].
Qed.

End RouteFacts.

(* ------------------------------------------------------------------ *)
(** ** Properties of the pipeline *)

Section Pipeline.

Import RateLimit Schema Brevo Route Props.

Variable isEmail : string -> bool.
Variable generateContactEmailContent :
  SendContactEmailParams.t -> string * string.

#[local] Abbreviation POST := (POST isEmail generateContactEmailContent).
#[local] Abbreviation serve := (serve isEmail generateContactEmailContent).
#[local] Abbreviation check w request st :=
  (isRateLimited (ClientIp.getClientIp (Request.headers request)) None
                 (now w) (rateLimitMap st)).

Implicit Types (w : World) (request : Request.t) (st : State).

Lemma len_pos (h : string) : h ≠ "" → (0 <? len h) = true.
Proof.
  intros H. destruct h as [|c h]; [done|]. apply Z.ltb_lt.
  unfold len. simpl String.length. lia.
Qed.

Lemma sole_violation body c :
  violated isEmail c body = true →
  (∀ c', c' ≠ c → violated isEmail c' body = false) →
  broken isEmail body = [c].
Proof.
  intros Hc Hothers. apply broken_unique; [done|].
  intros c' Hc'. destruct (decide (c' = c)) as [|Hne]; [done|].
  rewrite Hothers in Hc' by done. discriminate.
Qed.

(** C2, amended: when the other members satisfy every constraint, a filled
    honeypot makes the schema fail, with the single issue of the honeypot;
    the schema accepts the submission when the honeypot is absent or
    empty. *)
Theorem filled_honeypot_is_rejected body :
  (∀ c, c ≠ honeypot_empty → violated isEmail c body = false) →
  (∀ h, body !! "honeypot" = Some h → h ≠ "" →
     contactSchema isEmail body =
       Invalid [issue "honeypot" (Text "Ce champ doit rester vide")])
  ∧ (body !! "honeypot" = None ∨ body !! "honeypot" = Some "" →
     ∃ data, contactSchema isEmail body = Valid data).
Proof.
  intros Hothers. split.
  - intros h Hh Hne.
    apply (contactSchema_invalid isEmail body honeypot_empty []).
    apply sole_violation; [|done]. simpl. rewrite Hh. simpl.
    by apply len_pos.
  - intros Hh. apply contactSchema_valid, broken_none. intros c.
    destruct (decide (c = honeypot_empty)) as [->|]; [|by apply Hothers].
    simpl. by destruct Hh as [-> | ->].
Qed.

(** Under the first five calls of a window nothing is refused; every later
    call of the window is. *)
Lemma window_answer_at key t0 (ts : list Z) m (i : nat) (b : bool) :
  stale t0 (m !! key) →
  Forall (λ t, t <= t0 + 60000) ts →
  (run (map (Call key None) (t0 :: ts)) m).1 !! i = Some b →
  b = bool_decide (5 ≤ i)%nat.
Proof.
  intros Hstale Hall. rewrite window_answers_fresh by done.
  change (map ?f ?l) with (f <$> l). rewrite list_lookup_fmap.
  intros H. apply fmap_Some in H as (j & Hj & ->).
  apply lookup_seq in Hj as [-> _].
  apply bool_decide_ext. lia.
Qed.

(** C4, amended: from a stale entry, the calls of one client inside one
    window are not limited up to the fifth and limited from the sixth on;
    the handler answers the first five with something else than the quota
    error and the later ones with status 429 and [Retry-After: 60]. *)
Theorem five_per_window :
  (∀ key t0 (ts : list Z) m (i : nat) (b : bool),
     stale t0 (m !! key) →
     Forall (λ t, t <= t0 + 60000) ts →
     (run (map (Call key None) (t0 :: ts)) m).1 !! i = Some b →
     b = bool_decide (5 ≤ i)%nat)
  ∧ (∀ w0 request0 (requests : list (World * Request.t)) st
       (i : nat) response,
       stale (now w0)
         (rateLimitMap st !! ClientIp.getClientIp (Request.headers request0)) →
       Forall (λ wr : World * Request.t,
                 ClientIp.getClientIp (Request.headers wr.2) =
                 ClientIp.getClientIp (Request.headers request0)
                 ∧ now wr.1 <= now w0 + 60000) requests →
       (serve ((w0, request0) :: requests) st).1 !! i = Some response →
       ((i < 5)%nat →
          Response.status response ≠ 429
          ∧ code (Response.body response) ≠ Some "RATE_LIMIT_EXCEEDED")
       ∧ ((5 ≤ i)%nat →
          response = tooManyRequests
          ∧ Response.status response = 429
          ∧ Response.headers response = [("Retry-After", "60")])).
Proof.
  split; [apply window_answer_at|].
  intros w0 request0 requests st i response Hstale Hall Hi.
  set (ip := ClientIp.getClientIp (Request.headers request0)) in *.
  assert (Hips : Forall (λ wr : World * Request.t,
            ClientIp.getClientIp (Request.headers wr.2) = ip)
            ((w0, request0) :: requests)).
  { constructor; [done|]. eapply Forall_impl; [exact Hall|]. by intros ? []. }
  pose proof (serve_limits isEmail generateContactEmailContent ip _ st Hips
                _ eq_refl) as H2.
  destruct (Forall2_lookup_r _ _ _ _ _ H2 Hi) as (b & Hb & Hresp).
  cbn [map] in Hb. simpl fst in Hb.
  assert (Hb' : (run (map (Call ip None)
                   (now w0 :: map (λ wr : World * Request.t, now wr.1) requests))
                   (rateLimitMap st)).1 !! i = Some b).
  { cbn [map]. by rewrite map_map. }
  apply window_answer_at in Hb'; [|done|].
  2:{ apply Forall_forall. intros t Ht.
      apply list_elem_of_In, in_map_iff in Ht as (wr & <- & Hwr).
      rewrite Forall_forall in Hall. apply list_elem_of_In in Hwr.
      by destruct (Hall wr Hwr). }
  subst b. split; intros Hlt.
  - rewrite bool_decide_eq_false_2 in Hresp by lia. done.
  - rewrite bool_decide_eq_true_2 in Hresp by lia. by subst.
Qed.

(** C5, amended: a body that is not JSON is answered 400 [INVALID_JSON]
    whatever the schema, provided the client is within its quota; over the
    quota the answer is the quota error. *)
Theorem malformed_body_after_rate_check w request st :
  Request.json request = None →
  ((check w request st).1 = false → (POST w request st).1 = invalidJson)
  ∧ ((check w request st).1 = true → (POST w request st).1 = tooManyRequests).
Proof.
  intros Hj. split; intros Hc.
  - by rewrite POST_invalid_json.
  - by rewrite POST_limited.
Qed.

(** C9, amended: a submission of a client within its quota that breaks
    exactly one constraint is answered with status 400 and code
    [VALIDATION_ERROR] and with one entry, naming the member the
    constraint bears on; for a message of five characters this is the
    entry of the minimal length of [message]. *)
Theorem one_violation_one_error w request st body :
  (check w request st).1 = false →
  Request.json request = Some body →
  (∀ c, violated isEmail c body = true →
        (∀ c', violated isEmail c' body = true → c' = c) →
        (POST w request st).1 =
          validationError [{| FieldError.field := field c;
                              FieldError.message := text c |}]
        ∧ Response.status (POST w request st).1 = 400
        ∧ code (Response.body (POST w request st).1)
          = Some "VALIDATION_ERROR")
  ∧ (∀ s, body !! "message" = Some s → len s = 5 →
          (∀ c', c' ≠ message_min → violated isEmail c' body = false) →
          (POST w request st).1 =
            validationError
              [{| FieldError.field := "message";
                  FieldError.message :=
                    Text "Le message doit contenir au moins 20 caractères" |}]
          ∧ Response.status (POST w request st).1 = 400
          ∧ code (Response.body (POST w request st).1)
            = Some "VALIDATION_ERROR").
Proof.
  intros Hc Hj. split.
  - intros c Hv Huniq.
    by rewrite (POST_invalid _ _ _ _ _ body _ Hc Hj
                  (contactSchema_invalid isEmail body c []
                     (broken_unique isEmail body c Hv Huniq))).
  - intros s Hs Hlen Hothers.
    assert (Hb : broken isEmail body = [message_min]).
    { apply sole_violation; [|done]. simpl. rewrite Hs. simpl.
      rewrite Hlen. done. }
    by rewrite (POST_invalid _ _ _ _ _ body _ Hc Hj
                  (contactSchema_invalid isEmail body _ [] Hb)).
Qed.

(** C8, amended: every request moves the limiter's table by exactly the
    call made for its client, whatever the answer; an answer of success
    comes with exactly one request to the provider in production and with
    none outside production; a filled honeypot sends nothing. *)
Theorem POST_effects w request st :
  let ip := ClientIp.getClientIp (Request.headers request) in
  let st' := (POST w request st).2 in
  rateLimitMap st' = (isRateLimited ip None (now w) (rateLimitMap st)).2
  ∧ (∃ r', rateLimitMap st' !! ip = Some r'
       ∧ ((stale (now w) (rateLimitMap st !! ip)
           ∧ r' = {| count := 1; resetTime := now w + 60000 |})
          ∨ (∃ r, rateLimitMap st !! ip = Some r ∧ now w <= resetTime r
               ∧ r' = {| count := count r + 1; resetTime := resetTime r |})))
  ∧ (∀ key, key ≠ ip → rateLimitMap st' !! key = rateLimitMap st !! key)
  ∧ (success (Response.body (POST w request st).1) = true →
       (production w → ∃ call, calls st' = (calls st ++ [call])%list)
       ∧ (¬ production w → calls st' = calls st))
  ∧ (∀ body, Request.json request = Some body →
       longer 0 (body !! "honeypot") = true → calls st' = calls st).
Proof.
  intros ip st'. subst st'. rewrite POST_rateLimitMap. fold ip.
  split; [done|]. split; [|split; [|split]].
  - destruct (stale_or_live (now w) (rateLimitMap st !! ip))
      as [Hs|(r & Hr & Hlive)].
    + rewrite isRateLimited_stale by done. simpl.
      rewrite lookup_insert_eq. eauto.
    + rewrite (isRateLimited_live ip None (now w) _ r) by done. simpl.
      rewrite lookup_insert_eq. eauto 8.
  - intros key Hne.
    destruct (stale_or_live (now w) (rateLimitMap st !! ip))
      as [Hs|(r & Hr & Hlive)].
    + rewrite isRateLimited_stale by done. simpl.
      by rewrite lookup_insert_ne.
    + rewrite (isRateLimited_live ip None (now w) _ r) by done. simpl.
      by rewrite lookup_insert_ne.
  - destruct (POST_cases isEmail w request st)
      as [H|[[H1 H2]|[(body & issues & H1 & H2 & H3)
                     |(body & data & H1 & H2 & H3)]]].
    + by rewrite POST_limited.
    + by rewrite POST_invalid_json.
    + by rewrite (POST_invalid _ _ _ _ _ body issues).
    + rewrite (POST_valid _ _ _ _ _ body data) by done.
      destruct (sendContactEmail _ _ _ _) as [[id|e] calls'] eqn:Hsend;
        [|done].
      intros _. simpl. split; intros Hmode.
      * by eapply sendContactEmail_Ok_production.
      * rewrite sendContactEmail_bypass in Hsend by done. congruence.
  - intros body Hj Hh.
    destruct ((check w request st).1) eqn:Hc.
    + by rewrite POST_limited.
    + by destruct (POST_honeypot isEmail generateContactEmailContent
                     w request st body Hc Hj Hh) as (? & _ & _ & ?).
Qed.

End Pipeline.

(* ------------------------------------------------------------------ *)
(** ** The properties on the sample inputs *)

Section Instances.

Import RateLimit Schema Brevo Route Props Sample.

#[local] Abbreviation POST := (POST EmailPattern.test render).
#[local] Abbreviation serve := (serve EmailPattern.test render).

(** The submission of the first scenario with the honeypot filled. *)
#[local] Abbreviation trapped := (<["honeypot" := "bot"]> submission).

(** The same submission with a message of five characters. *)
#[local] Abbreviation terse := (<["message" := "12345"]> submission).

(** The first scenario of the specification, in production: the client is
    read off the forwarding header, the mail leaves, the answer is 200 with
    the identifier the provider gave. *)
Example POST_sample_submission :
  ClientIp.getClientIp (Request.headers (request (Some submission)))
    = "203.0.113.7"
  ∧ (POST (prod 1000) (request (Some submission)) start).1 =
      json (Success "Message envoyé avec succès !"
                    (Some "<202611020001@smtp-relay>")) None []
  ∧ length (calls (POST (prod 1000) (request (Some submission)) start).2)
      = 1%nat.
Proof. split; [by vm_compute|]. split; by vm_compute. Qed.

(** Some addresses against the pattern. *)
Example EmailPattern_samples :
  map EmailPattern.test
      ["a@b.com"; "jo.o'neil+tag@mail.example.org"; "a@b"; ".a@b.com";
       "a..b@c.de"; "a.@b.com"; "x@-y.org"; "x@y.o1g"; "@b.com"; "a@b.c";
       "a@@b.com"; "a@b..com"; "a b@c.de"]
  = [true; true; false; false; false; false; false; false; false; false;
     false; false; false].
Proof. by vm_compute. Qed.

Lemma submission_breaks_nothing c :
  violated EmailPattern.test c submission = false.
Proof. by destruct c; vm_compute. Qed.

Lemma trapped_breaks_only_honeypot c :
  c ≠ honeypot_empty → violated EmailPattern.test c trapped = false.
Proof. by destruct c; intros ?; vm_compute. Qed.

Lemma terse_breaks_only_message_min c :
  c ≠ message_min → violated EmailPattern.test c terse = false.
Proof. by destruct c; intros ?; vm_compute. Qed.

(** C2 fails as stated: all other members of [trapped] are in order, its
    honeypot is filled, and the schema rejects it. *)
Lemma filled_honeypot_invalidates_schema :
  broken EmailPattern.test trapped = [honeypot_empty]
  ∧ trapped !! "honeypot" = Some "bot"
  ∧ contactSchema EmailPattern.test trapped =
      Invalid [issue "honeypot" (Text "Ce champ doit rester vide")]
  ∧ ¬ ∃ data, contactSchema EmailPattern.test trapped = Valid data.
Proof.
  assert (H : contactSchema EmailPattern.test trapped =
                Invalid [issue "honeypot" (Text "Ce champ doit rester vide")])
    by (by vm_compute).
  split; [by vm_compute|]. split; [by vm_compute|]. split; [done|].
  intros [data Hd]. congruence.
Qed.

Lemma filled_honeypot_is_rejected_witness :
  contactSchema EmailPattern.test trapped =
    Invalid [issue "honeypot" (Text "Ce champ doit rester vide")].
Proof.
  apply (proj1 (filled_honeypot_is_rejected EmailPattern.test trapped
                  trapped_breaks_only_honeypot) "bot").
  - reflexivity.
  - discriminate.
Defined.

(** C3 on the failing input: a request within quota whose body carries a
    filled honeypot is answered 400 with a validation error on the
    honeypot, not with a success; no mail leaves. *)
Example POST_filled_honeypot :
  (isRateLimited
     (ClientIp.getClientIp (Request.headers (request (Some trapped))))
     None 1000 (rateLimitMap start)).1 = false
  ∧ (POST (prod 1000) (request (Some trapped)) start).1 =
      validationError
        [{| FieldError.field := "honeypot";
            FieldError.message := Text "Ce champ doit rester vide" |}]
  ∧ success (Response.body
               (POST (prod 1000) (request (Some trapped)) start).1) = false
  ∧ calls (POST (prod 1000) (request (Some trapped)) start).2 = [].
Proof.
  split; [by vm_compute|]. split; [by vm_compute|].
  split; by vm_compute.
Qed.

(** Six requests of the sample client, one every two seconds. *)
#[local] Abbreviation burst :=
  (map (λ k : Z, (prod (1000 + 2000 * k), request (Some submission)))
       [0; 1; 2; 3; 4; 5]).

(** C4 fails as stated for N below five: after one request the second one
    of the same window is not limited. *)
Lemma next_request_not_always_limited :
  (run [Call "203.0.113.7" None 0; Call "203.0.113.7" None 0] ∅).1
    = [false; false]
  ∧ ¬ (∀ N : nat, (N ≤ 5)%nat →
         (run (map (Call "203.0.113.7" None) (replicate (S N) 0)) ∅).1 !! N
           = Some true).
Proof.
  split; [by vm_compute|].
  intros H. specialize (H 1%nat ltac:(lia)). vm_compute in H. discriminate.
Qed.

Lemma five_per_window_witness :
  map Response.status (serve burst start).1 = [200; 200; 200; 200; 200; 429]
  ∧ ∀ response, (serve burst start).1 !! 5%nat = Some response →
      response = tooManyRequests
      ∧ Response.status response = 429
      ∧ Response.headers response = [("Retry-After", "60")].
Proof.
  split; [by vm_compute|].
  intros response H.
  refine (proj2 (proj2 (five_per_window EmailPattern.test render)
                   (prod 1000) (request (Some submission))
                   (map (λ k : Z,
                           (prod (1000 + 2000 * k), request (Some submission)))
                        [1; 2; 3; 4; 5])
                   start 5%nat response _ _ H) _).
  - vm_compute. exact I.
  - repeat constructor; simpl; lia.
  - lia.
Defined.

(** C5 fails as stated: over the quota a body that is not JSON is answered
    with the quota error, status 429. *)
Lemma malformed_body_over_quota :
  Request.json (request None) = None
  ∧ (POST (prod 1000) (request None) exhausted).1 = tooManyRequests
  ∧ Response.status (POST (prod 1000) (request None) exhausted).1 ≠ 400
  ∧ code (Response.body (POST (prod 1000) (request None) exhausted).1)
      ≠ Some "INVALID_JSON".
Proof.
  split; [done|]. split; [by vm_compute|]. split; by vm_compute.
Qed.

Lemma malformed_body_after_rate_check_witness :
  (POST (prod 1000) (request None) start).1 = invalidJson.
Proof.
  apply (proj1 (malformed_body_after_rate_check EmailPattern.test render
                  (prod 1000) (request None) start eq_refl)).
  vm_compute. reflexivity.
Defined.

(** The parameters the handler passes for the sample submission. *)
#[local] Abbreviation params :=
  {| SendContactEmailParams.name := "Jo";
     SendContactEmailParams.email := "a@b.com";
     SendContactEmailParams.subject := "Hi there";
     SendContactEmailParams.message := "xxxxxxxxxxxxxxxxxxxx";
     SendContactEmailParams.projectType := None;
     SendContactEmailParams.budget := None |}.

(** C6 fails as stated: outside production the send succeeds without any
    API key and without any request to the provider. *)
Lemma send_without_key_succeeds_outside_production :
  truthy (env (dev 1000) !! "BREVO_API_KEY") = None
  ∧ sendContactEmail render (dev 1000) params [] = (Ok "dev-console", []).
Proof. split; by vm_compute. Qed.

Lemma missing_configuration_fails_in_production_witness :
  sendContactEmail render
    {| now := 1000;
       env := list_to_map [("NODE_ENV", "production");
                           ("BREVO_SENDER_EMAIL", "site@example.org")];
       fetch := accepted |}
    params [] =
  (Throw (Error "BREVO_API_KEY is not defined in environment variables"), []).
Proof.
  etrans.
  - apply (proj1 (proj2 (missing_configuration_fails_in_production render
             {| now := 1000;
                env := list_to_map
                         [("NODE_ENV", "production");
                          ("BREVO_SENDER_EMAIL", "site@example.org")];
                fetch := accepted |} params [])));
      vm_compute; reflexivity.
  - vm_compute. reflexivity.
Defined.

(** C8 fails as stated: outside production the request is answered with
    success although no request left for the provider. *)
Lemma success_without_dispatch_outside_production :
  success (Response.body
             (POST (dev 1000) (request (Some submission)) start).1) = true
  ∧ (POST (dev 1000) (request (Some submission)) start).1 =
      json (Success "Message envoyé avec succès !" (Some "dev-console"))
           None []
  ∧ calls (POST (dev 1000) (request (Some submission)) start).2 = [].
Proof. split; [by vm_compute|]. split; by vm_compute. Qed.

Lemma POST_effects_witness :
  ∃ call,
    calls (POST (prod 1000) (request (Some submission)) start).2 =
      (calls start ++ [call])%list.
Proof.
  destruct (POST_effects EmailPattern.test render
              (prod 1000) (request (Some submission)) start)
    as (_ & _ & _ & H & _).
  apply H.
  - vm_compute. reflexivity.
  - vm_compute. reflexivity.
Defined.

(** C9 fails as stated: over the quota a submission whose only defect is
    a message of five characters is answered with the quota error, status
    429, and not with a validation error. *)
Lemma short_message_over_quota :
  broken EmailPattern.test terse = [message_min]
  ∧ (POST (prod 1000) (request (Some terse)) exhausted).1 = tooManyRequests
  ∧ Response.status (POST (prod 1000) (request (Some terse)) exhausted).1
    ≠ 400
  ∧ code (Response.body
            (POST (prod 1000) (request (Some terse)) exhausted).1)
    ≠ Some "VALIDATION_ERROR".
Proof.
  split; [by vm_compute|]. split; [by vm_compute|]. split; by vm_compute.
Qed.

(** A submission without email, within quota: the one entry carries the
    text the schema gives to the email. *)
Example POST_missing_email :
  (POST (prod 1000) (request (Some (delete "email" submission))) start).1 =
    validationError
      [{| FieldError.field := "email";
          FieldError.message :=
            Text "Veuillez entrer une adresse email valide" |}].
Proof. by vm_compute. Qed.

Lemma one_violation_one_error_witness :
  (POST (prod 1000) (request (Some terse)) start).1 =
    validationError
      [{| FieldError.field := "message";
          FieldError.message :=
            Text "Le message doit contenir au moins 20 caractères" |}].
Proof.
  apply (proj2 (one_violation_one_error EmailPattern.test render
                  (prod 1000) (request (Some terse)) start terse
                  eq_refl eq_refl) "12345").
  - reflexivity.
  - reflexivity.
  - intros c Hc. destruct c; (reflexivity || contradiction).
Defined.

End Instances.

(* ------------------------------------------------------------------ *)
(** ** More on the rate limiter *)

Section RateLimitMore.

Import RateLimit Props Terms.

Implicit Types (m : gmap string RateLimitRecord) (r : RateLimitRecord).

(** A call touches the record of its key only. *)
Lemma isRateLimited_frame key k options now m :
  k ≠ key → (isRateLimited k options now m).2 !! key = m !! key.
Proof.
  intros Hne.
  destruct (stale_or_live now (m !! k)) as [Hs|(r & Hr & Hlive)].
  - rewrite isRateLimited_stale by done. simpl. by rewrite lookup_insert_ne.
  - rewrite (isRateLimited_live k options now m r) by done. simpl.
    by rewrite lookup_insert_ne.
Qed.

(** The answer of a call and the record it leaves depend on the record of
    its key only. *)
Lemma isRateLimited_local key options now m1 m2 :
  m1 !! key = m2 !! key →
  (isRateLimited key options now m1).1 = (isRateLimited key options now m2).1
  ∧ (isRateLimited key options now m1).2 !! key
    = (isRateLimited key options now m2).2 !! key.
Proof.
  intros Heq. unfold isRateLimited. rewrite Heq.
  destruct (m2 !! key) as [r|]; [destruct (expired now r)|]; simpl;
    by rewrite !lookup_insert_eq.
Qed.

Lemma counted_isRateLimited key options now m :
  counted m → counted (isRateLimited key options now m).2.
Proof.
  intros Hm k r'.
  destruct (decide (key = k)) as [<-|Hne].
  - destruct (stale_or_live now (m !! key)) as [Hs|(r & Hr & Hlive)].
    + rewrite isRateLimited_stale by done. simpl.
      rewrite lookup_insert_eq. by intros [= <-].
    + rewrite (isRateLimited_live key options now m r) by done. simpl.
      rewrite lookup_insert_eq. intros [= <-]. simpl.
      specialize (Hm key r Hr). lia.
  - rewrite isRateLimited_frame by done. apply Hm.
Qed.

Lemma counted_cleanup now m : counted m → counted (cleanupRateLimitMap now m).
Proof.
  intros Hm k r. rewrite cleanup_lookup.
  destruct (m !! k) as [r0|] eqn:Hr; [|done].
  destruct (expired now r0); [done|]. intros [= <-]. by apply (Hm k).
Qed.

Lemma counted_run events m : counted m → counted (run events m).2.
Proof.
  revert m. induction events as [|[key options now|now] events IH];
    intros m Hm; [done| |].
  - simpl. pose proof (counted_isRateLimited key options now m Hm) as H.
    destruct (isRateLimited key options now m) as [b m']. simpl in H.
    specialize (IH m' H). by destruct (run events m').
  - simpl. apply IH. by apply counted_cleanup.
Qed.

Lemma recorded_run events m key :
  is_Some ((run events m).2 !! key) → key ∈ called events ∨ is_Some (m !! key).
Proof.
  revert m. induction events as [|[k options now|now] events IH];
    intros m; [by right| |].
  - simpl. destruct (isRateLimited k options now m) as [b m'] eqn:Hc.
    specialize (IH m'). destruct (run events m') as [bs m'']. simpl in *.
    intros H. destruct (IH H) as [Hin|Hsome].
    + left. by right.
    + destruct (decide (k = key)) as [->|Hne]; [left; by left|].
      right. rewrite <- (isRateLimited_frame key k options now m Hne).
      by rewrite Hc.
  - simpl. intros H. destruct (IH _ H) as [Hin|Hsome]; [by left|].
    right. rewrite cleanup_lookup in Hsome.
    destruct (m !! key); [done|]. by destruct Hsome.
Qed.

(** X1: starting from the empty table, whatever calls and sweeps happen,
    every record holds a count of at least one, and only keys that were
    called have a record. *)
Theorem reachable_tables events :
  counted (run events ∅).2
  ∧ ∀ key, is_Some ((run events ∅).2 !! key) → key ∈ called events.
Proof.
  split.
  - apply counted_run. intros key r. by rewrite lookup_empty.
  - intros key H. destruct (recorded_run events ∅ key H) as [|Hs]; [done|].
    rewrite lookup_empty in Hs. by destruct Hs.
Qed.

(** Inside one window, with any options, the [i]-th call after a record
    with count [c] is refused exactly when [c + i] goes beyond the quota. *)
Lemma window_answers_any key options (ts : list Z) m r :
  m !! key = Some r →
  Forall (λ t, t <= resetTime r) ts →
  (run (map (Call key options) ts) m).1 =
    map (λ i : nat, count r + Z.of_nat i >? quota options)
        (seq 1 (length ts)).
Proof.
  revert m r. induction ts as [|t ts IH]; intros m r Hr Hall; [done|].
  apply Forall_cons in Hall as [Ht Hrest]. simpl.
  rewrite (isRateLimited_live key options t m r) by done.
  specialize (IH (<[key := {| count := count r + 1;
                              resetTime := resetTime r |}]> m)
                 {| count := count r + 1; resetTime := resetTime r |}).
  rewrite lookup_insert_eq in IH. specialize (IH eq_refl Hrest).
  destruct (run (map (Call key options) ts) _) as [bs m'']. simpl in *.
  f_equal. rewrite IH, <- (seq_shift (length ts) 1), map_map.
  apply map_ext. intros i. simpl. f_equal. lia.
Qed.

(** X2: with any [maxRequests] and [windowMs], the first call of a window
    is admitted and a later call of the window, the [i]-th after the
    first, is refused exactly when [i] reaches [maxRequests]. *)
Theorem quota_per_window key options t0 (ts : list Z) m (i : nat) (b : bool) :
  stale t0 (m !! key) →
  Forall (λ t, t <= t0 + window options) ts →
  (run (map (Call key options) (t0 :: ts)) m).1 !! i = Some b →
  b = bool_decide ((1 ≤ i)%nat ∧ quota options <= Z.of_nat i).
Proof.
  intros Hstale Hall. cbn [map run].
  rewrite isRateLimited_stale by done. simpl.
  pose proof (window_answers_any key options ts
    (<[key := {| count := 1; resetTime := t0 + window options |}]> m)
    {| count := 1; resetTime := t0 + window options |}) as H.
  rewrite lookup_insert_eq in H. specialize (H eq_refl Hall).
  change (default 60000 (options ≫= windowMs)) with (window options).
  destruct (run (map (Call key options) ts) _) as [bs m'']. simpl in *.
  subst bs. destruct i as [|i].
  - intros [= <-]. symmetry. apply bool_decide_eq_false_2. lia.
  - cbn [lookup list_lookup]. intros Hi.
    change (((λ i0 : nat, 1 + Z.of_nat i0 >? quota options)
               <$> seq 1 (length ts)) !! i = Some b) in Hi.
    rewrite list_lookup_fmap in Hi.
    apply fmap_Some in Hi as (j & Hj & ->).
    apply lookup_seq in Hj as [-> _].
    destruct (Z.gtb_spec (1 + Z.of_nat (1 + i)) (quota options));
      symmetry;
      [apply bool_decide_eq_true_2|apply bool_decide_eq_false_2]; lia.
Qed.

Lemma quota_per_window_witness :
  true = bool_decide
           ((1 ≤ 2)%nat
            ∧ quota (Some {| maxRequests := Some 2; windowMs := Some 1000 |})
              <= Z.of_nat 2).
Proof.
  apply (quota_per_window "203.0.113.7"
           (Some {| maxRequests := Some 2; windowMs := Some 1000 |})
           5000 [5400; 6000] ∅ 2%nat true).
  - exact I.
  - repeat constructor; vm_compute; discriminate.
  - vm_compute. reflexivity.
Defined.

(** X3: the answers a key gets are those it would get if the calls made
    for the other keys had not happened. *)
Theorem keys_are_independent key events m :
  answersFor key events m =
    (run (List.filter (concerns key) events) m).1.
Proof.
  enough (H : ∀ events m1 m2, m1 !! key = m2 !! key →
            answersFor key events m1 =
            (run (List.filter (concerns key) events) m2).1)
    by (apply H; reflexivity).
  clear m events. induction events as [|[k options now|now] events IH];
    intros m1 m2 Heq; [done| |].
  - cbn [answersFor List.filter concerns].
    destruct (bool_decide (k = key)) eqn:Hk.
    + apply bool_decide_eq_true in Hk as ->. cbn [run].
      destruct (isRateLimited_local key options now m1 m2 Heq) as [Hb Hm].
      destruct (isRateLimited key options now m1) as [b1 m1'].
      destruct (isRateLimited key options now m2) as [b2 m2'].
      simpl in *. subst b2. specialize (IH m1' m2' Hm).
      destruct (run _ m2'). simpl in *. by rewrite IH.
    + apply bool_decide_eq_false in Hk.
      pose proof (isRateLimited_frame key k options now m1 Hk) as Hf.
      destruct (isRateLimited k options now m1) as [b1 m1']. simpl in Hf.
      apply IH. congruence.
  - cbn [answersFor List.filter concerns run]. apply IH.
    by rewrite !cleanup_lookup, Heq.
Qed.

(** X4: a sweep after an earlier sweep leaves what the later sweep alone
    would leave; in particular sweeping twice at the same time changes
    nothing more. *)
Theorem sweeps_compose t1 t2 m :
  t1 <= t2 →
  cleanupRateLimitMap t2 (cleanupRateLimitMap t1 m) = cleanupRateLimitMap t2 m.
Proof.
  intros Hle. apply map_eq. intros key. rewrite !cleanup_lookup.
  destruct (m !! key) as [r|]; [|done].
  destruct (expired t1 r) eqn:H1; [|done].
  apply expired_true in H1.
  assert (H2 : expired t2 r = true) by (apply expired_true; lia).
  by rewrite H2.
Qed.

Lemma sweeps_compose_witness :
  cleanupRateLimitMap 300000
    (cleanupRateLimitMap 300000
       (<["203.0.113.7" := {| count := 5; resetTime := 61000 |}]> ∅))
  = cleanupRateLimitMap 300000
      (<["203.0.113.7" := {| count := 5; resetTime := 61000 |}]> ∅).
Proof.
  apply (sweeps_compose 300000 300000). lia.
Defined.

(** X5: after a sweep at time [t] the table holds exactly the records of
    before whose window is not over at [t]: every expired record is gone,
    none is altered or added, and the table has not grown. *)
Theorem sweep_keeps_the_live_records t m :
  (∀ key r, cleanupRateLimitMap t m !! key = Some r
            ↔ m !! key = Some r ∧ t <= resetTime r)
  ∧ cleanupRateLimitMap t m ⊆ m
  ∧ (size (cleanupRateLimitMap t m) ≤ size m)%nat.
Proof.
  split; [|split].
  - intros key r. rewrite cleanup_lookup.
    destruct (m !! key) as [r0|]; [|split; [done|by intros [? _]]].
    destruct (expired t r0) eqn:He.
    + apply expired_true in He. split; [done|]. intros [[= ->] ?]. lia.
    + apply expired_false in He. split; [by intros [= <-]|by intros [? _]].
  - apply map_filter_subseteq.
  - apply map_subseteq_size, map_filter_subseteq.
Qed.

(** With a negative window every new record is born expired. *)
Lemma negative_window_answers key options (ts : list Z) m :
  window options < 0 →
  StronglySorted Z.le ts →
  match ts with t :: _ => stale t (m !! key) | [] => True end →
  (run (map (Call key options) ts) m).1 = replicate (length ts) false.
Proof.
  intros Hw. revert m. induction ts as [|t ts IH]; intros m Hs Hstale; [done|].
  apply StronglySorted_inv in Hs as [Hs Hall]. cbn [map run].
  rewrite isRateLimited_stale by done.
  change (default 60000 (options ≫= windowMs)) with (window options).
  specialize (IH (<[key := {| count := 1;
                              resetTime := t + window options |}]> m) Hs).
  destruct (run (map (Call key options) ts) _) as [bs m'']. simpl in *.
  f_equal. apply IH. destruct ts as [|t2 ts]; [done|].
  rewrite lookup_insert_eq. simpl.
  apply Forall_cons in Hall as [Hle _]. lia.
Qed.

(** X6: with a negative [windowMs] and a clock that does not go back, no
    call for a key is ever refused, however many there are. *)
Theorem negative_window_never_limits key options (ts : list Z) m :
  window options < 0 →
  StronglySorted Z.le ts →
  match ts with t :: _ => stale t (m !! key) | [] => True end →
  Forall (λ b, b = false) (run (map (Call key options) ts) m).1.
Proof.
  intros Hw Hs Hstale. rewrite negative_window_answers by done.
  apply Forall_forall. by intros b ->%elem_of_replicate_inv.
Qed.

Lemma negative_window_never_limits_witness :
  Forall (λ b, b = false)
    (run (map (Call "203.0.113.7"
                 (Some {| maxRequests := Some 1; windowMs := Some (-1) |}))
              [10; 10; 11; 12]) ∅).1.
Proof.
  apply (negative_window_never_limits "203.0.113.7"
           (Some {| maxRequests := Some 1; windowMs := Some (-1) |})
           [10; 10; 11; 12] ∅).
  - vm_compute. reflexivity.
  - repeat constructor; vm_compute; discriminate.
  - exact I.
Defined.

End RateLimitMore.

(* ------------------------------------------------------------------ *)
(** ** The client identifier *)

Section ClientIpFacts.

Import ClientIp Terms.

Lemma truthy_Some v s : truthy v = Some s → v = Some s ∧ s ≠ "".
Proof.
  unfold truthy. destruct v as [s'|]; [|done].
  destruct (String.eqb_spec s' ""); [done|]. by intros [= <-].
Qed.

Lemma truthy_None v : truthy v = None → v = None ∨ v = Some "".
Proof.
  unfold truthy. destruct v as [s'|]; [|by left].
  destruct (String.eqb_spec s' ""); [right; by subst|done].
Qed.

Lemma comma_not_white c : isComma c = true → isWhiteSpace c = false.
Proof. unfold isComma. intros ->%Ascii.eqb_eq. reflexivity. Qed.

Lemma firstOfSplit_no_comma s : hasComma (firstOfSplit s) = false.
Proof.
  unfold hasComma. apply negb_false_iff.
  induction s as [|c s IH]; [done|]. simpl.
  destruct (Ascii.eqb c ",") eqn:Hc; [done|]. simpl.
  unfold isComma. by rewrite Hc.
Qed.

Lemma firstOfSplit_app a b :
  hasComma a = false → firstOfSplit (a +:+ "," +:+ b) = a.
Proof.
  unfold hasComma. intros H%negb_false_iff.
  induction a as [|c a IH]; [done|]. simpl in *.
  apply andb_true_iff in H as [Hc Ha]. unfold isComma in Hc.
  apply negb_true_iff in Hc. rewrite Hc. f_equal. by apply IH.
Qed.

Lemma trimStart_no_comma s : hasComma s = false → hasComma (trimStart s) = false.
Proof.
  unfold hasComma. rewrite !negb_false_iff.
  induction s as [|c s IH]; [done|]. simpl. intros H.
  destruct (isWhiteSpace c); [|done].
  apply andb_true_iff in H as [_ H]. by apply IH.
Qed.

Lemma trimEnd_no_comma s : hasComma s = false → hasComma (trimEnd s) = false.
Proof.
  unfold hasComma. rewrite !negb_false_iff.
  induction s as [|c s IH]; [done|]. simpl. intros H.
  apply andb_true_iff in H as [Hc H]. specialize (IH H).
  destruct (trimEnd s) as [|c' s'].
  - destruct (isWhiteSpace c); [done|]. simpl. by rewrite Hc.
  - simpl in *. by rewrite Hc, IH.
Qed.

Lemma trimStart_starts s : startsWith isWhiteSpace (trimStart s) = false.
Proof.
  induction s as [|c s IH]; [done|]. simpl.
  destruct (isWhiteSpace c) eqn:Hc; [done|]. simpl. by rewrite Hc.
Qed.

Lemma trimEnd_starts s :
  startsWith isWhiteSpace s = false →
  startsWith isWhiteSpace (trimEnd s) = false.
Proof.
  destruct s as [|c s]; [done|]. simpl. intros Hc.
  destruct (trimEnd s); [by rewrite Hc|done].
Qed.

Lemma trimEnd_ends s : endsWith isWhiteSpace (trimEnd s) = false.
Proof.
  induction s as [|c s IH]; [done|]. simpl.
  destruct (trimEnd s) as [|c' s'].
  - destruct (isWhiteSpace c) eqn:Hc; [done|]. simpl. by rewrite Hc.
  - exact IH.
Qed.

Lemma trimEnd_empty s : trimEnd s = "" ↔ every isWhiteSpace s = true.
Proof.
  induction s as [|c s IH]; [done|]. simpl.
  destruct (trimEnd s) as [|c' s'].
  - destruct (isWhiteSpace c); simpl; [|done].
    split; [intros _; by apply IH|done].
  - split; [done|]. intros [_ H]%andb_true_iff. by apply IH in H.
Qed.

Lemma trimStart_every s :
  every isWhiteSpace (trimStart s) = every isWhiteSpace s.
Proof.
  induction s as [|c s IH]; [done|]. simpl.
  destruct (isWhiteSpace c) eqn:Hc; [done|]. simpl. by rewrite Hc.
Qed.

Lemma trim_empty s : trim s = "" ↔ every isWhiteSpace s = true.
Proof. unfold trim. by rewrite trimEnd_empty, trimStart_every. Qed.

(** X7: an identifier read off [x-forwarded-for] holds no comma and has no
    white space at either end. *)
Theorem forwarded_identifier_is_clean (headers : gmap string string) v :
  truthy (headers !! "x-forwarded-for") = Some v →
  hasComma (getClientIp headers) = false
  ∧ startsWith isWhiteSpace (getClientIp headers) = false
  ∧ endsWith isWhiteSpace (getClientIp headers) = false.
Proof.
  intros H. unfold getClientIp, trim. rewrite H. split; [|split].
  - apply trimEnd_no_comma, trimStart_no_comma, firstOfSplit_no_comma.
  - apply trimEnd_starts, trimStart_starts.
  - apply trimEnd_ends.
Qed.

Lemma forwarded_identifier_is_clean_witness :
  hasComma (getClientIp {["x-forwarded-for" := " 203.0.113.7 , 10.0.0.1"]})
    = false.
Proof.
  apply (forwarded_identifier_is_clean
           {["x-forwarded-for" := " 203.0.113.7 , 10.0.0.1"]}
           " 203.0.113.7 , 10.0.0.1").
  vm_compute. reflexivity.
Defined.

(** X8: only the first element of [x-forwarded-for] counts: whatever
    follows the first comma, and whatever [x-real-ip] says, the identifier
    is the first element without the white space around it. *)
Theorem first_forwarded_element_decides (headers : gmap string string) a b :
  hasComma a = false →
  getClientIp (<["x-forwarded-for" := a +:+ "," +:+ b]> headers) = trim a.
Proof.
  intros Ha. unfold getClientIp. rewrite lookup_insert_eq.
  assert (Hne : a +:+ "," +:+ b ≠ "") by (by destruct a).
  unfold truthy. destruct (String.eqb_spec (a +:+ "," +:+ b) ""); [done|].
  by rewrite firstOfSplit_app.
Qed.

Lemma first_forwarded_element_decides_witness :
  getClientIp (<["x-forwarded-for" := "203.0.113.7 " +:+ "," +:+ "10.0.0.1"]>
                 {["x-real-ip" := "198.51.100.9"]})
  = trim "203.0.113.7 ".
Proof.
  apply (first_forwarded_element_decides
           {["x-real-ip" := "198.51.100.9"]} "203.0.113.7 " "10.0.0.1").
  vm_compute. reflexivity.
Defined.

(** X9: the identifier is the empty string exactly when [x-forwarded-for]
    is set, not empty, and its first element is made of white space only;
    in no other case, since [x-real-ip] is used only when not empty and
    the fallback is ["unknown"]. *)
Theorem empty_identifier (headers : gmap string string) :
  getClientIp headers = ""
  ↔ ∃ v, truthy (headers !! "x-forwarded-for") = Some v
         ∧ every isWhiteSpace (firstOfSplit v) = true.
Proof.
  unfold getClientIp.
  destruct (truthy (headers !! "x-forwarded-for")) as [v|] eqn:Hf.
  - rewrite trim_empty. split; [by exists v|]. by intros (v' & [= <-] & H).
  - split; [|by intros (? & ? & _)].
    destruct (truthy (headers !! "x-real-ip")) as [ip|] eqn:Hr; [|done].
    apply truthy_Some in Hr as [_ Hne]. done.
Qed.

End ClientIpFacts.

(* ------------------------------------------------------------------ *)
(** ** More on the schema *)

Section SchemaMore.

Import Schema Props Terms Client.

Variable isEmail : string -> bool.

#[local] Abbreviation broken := (broken isEmail).

Lemma zString_Valid checks key v s :
  zString isEmail checks key v = Valid s → v = Some s.
Proof.
  unfold zString. destruct v as [s'|]; [|done].
  destruct (flat_map _ checks); [|done]. by intros [= <-].
Qed.

Lemma zEmail_Valid error checks key v s :
  zEmail isEmail error checks key v = Valid s → v = Some s.
Proof.
  unfold zEmail. destruct v as [s'|]; [|done].
  destruct (flat_map _ (_ :: checks)); [|done]. by intros [= <-].
Qed.

Lemma zEnum_Valid options key v s : zEnum options key v = Valid s → v = Some s.
Proof.
  unfold zEnum. destruct v as [s'|]; [|done].
  case_bool_decide; [|done]. by intros [= <-].
Qed.

Lemma optional_Valid {A} (inner : string -> option string -> Parsed A)
    key v (o : option A) :
  optional inner key v = Valid o →
  (v = None ∧ o = None) ∨ (∃ a, inner key v = Valid a ∧ o = Some a).
Proof.
  unfold optional. destruct v as [s|]; [|intros [= <-]; by left].
  destruct (inner key (Some s)) as [a|]; [|done].
  intros [= <-]. right. by exists a.
Qed.

Lemma optional_string_Valid (inner : string -> option string -> Parsed string)
    key v (o : option string) :
  (∀ s, inner key v = Valid s → v = Some s) →
  optional inner key v = Valid o → o = v.
Proof.
  intros Hinner H. apply optional_Valid in H as [[-> ->]|(a & Ha & ->)];
    [done|]. symmetry. by apply Hinner.
Qed.

(** The accepted values are the members of the body. *)
Lemma contactSchema_members body data :
  contactSchema isEmail body = Valid data →
  body !! "name" = Some (name data)
  ∧ body !! "email" = Some (email data)
  ∧ body !! "subject" = Some (subject data)
  ∧ body !! "message" = Some (Schema.message data)
  ∧ body !! "projectType" = projectType data
  ∧ body !! "budget" = budget data
  ∧ body !! "honeypot" = honeypot data.
Proof.
  unfold contactSchema. intros H.
  apply andThen_Valid in H as (f6 & h & H & Hh & ->).
  apply andThen_Valid in H as (f5 & b & H & Hb & ->).
  apply andThen_Valid in H as (f4 & p & H & Hp & ->).
  apply andThen_Valid in H as (f3 & m & H & Hm & ->).
  apply andThen_Valid in H as (f2 & s & H & Hs & ->).
  apply andThen_Valid in H as (f1 & e & H & He & ->).
  apply andThen_Valid in H as (f0 & n & H & Hn & ->).
  injection H as <-. simpl.
  apply zString_Valid in Hn, Hs, Hm. apply zEmail_Valid in He.
  apply optional_string_Valid in Hp; [|intros ?; apply zEnum_Valid].
  apply optional_string_Valid in Hb; [|intros ?; apply zEnum_Valid].
  apply optional_string_Valid in Hh; [|intros ?; apply zString_Valid].
  by subst.
Qed.

Lemma contactSchema_Valid_broken body data :
  contactSchema isEmail body = Valid data → broken body = [].
Proof.
  intros H. pose proof (issuesOf_contactSchema isEmail body) as Hi.
  rewrite H in Hi. simpl in Hi. by destruct (broken body).
Qed.

(** X10: the schema accepts a body exactly when it breaks none of the
    constraints, and the values it hands on are the members of the body,
    unchanged. *)
Theorem accepted_values body data :
  contactSchema isEmail body = Valid data
  ↔ broken body = []
    ∧ body !! "name" = Some (name data)
    ∧ body !! "email" = Some (email data)
    ∧ body !! "subject" = Some (subject data)
    ∧ body !! "message" = Some (Schema.message data)
    ∧ body !! "projectType" = projectType data
    ∧ body !! "budget" = budget data
    ∧ body !! "honeypot" = honeypot data.
Proof.
  split.
  - intros H. split; [by eapply contactSchema_Valid_broken|].
    by apply contactSchema_members.
  - intros (Hb & Hn & He & Hs & Hm & Hp & Hbu & Hh).
    destruct (contactSchema_valid isEmail body Hb) as [data' Hd].
    rewrite Hd. f_equal.
    apply contactSchema_members in Hd
      as (Hn' & He' & Hs' & Hm' & Hp' & Hbu' & Hh').
    destruct data, data'. simpl in *. congruence.
Qed.

Lemma toBody_members data :
  toBody data !! "name" = Some (name data)
  ∧ toBody data !! "email" = Some (email data)
  ∧ toBody data !! "subject" = Some (subject data)
  ∧ toBody data !! "message" = Some (Schema.message data)
  ∧ toBody data !! "projectType" = projectType data
  ∧ toBody data !! "budget" = budget data
  ∧ toBody data !! "honeypot" = honeypot data.
Proof.
  destruct data as [n e s m [p|] [b|] [h|]]; repeat split; reflexivity.
Qed.

(** The constraints look at the seven members only. *)
Lemma violated_members c body body' :
  body !! "name" = body' !! "name" →
  body !! "email" = body' !! "email" →
  body !! "subject" = body' !! "subject" →
  body !! "message" = body' !! "message" →
  body !! "projectType" = body' !! "projectType" →
  body !! "budget" = body' !! "budget" →
  body !! "honeypot" = body' !! "honeypot" →
  violated isEmail c body = violated isEmail c body'.
Proof.
  intros Hn He Hs Hm Hp Hb Hh.
  destruct c; cbn [violated]; by rewrite ?Hn, ?He, ?Hs, ?Hm, ?Hp, ?Hb, ?Hh.
Qed.

(** X11: values the schema has accepted, written out by [JSON.stringify]
    and read again, are accepted again and come out the same. *)
Theorem accepted_values_validate_again body data :
  contactSchema isEmail body = Valid data →
  contactSchema isEmail (toBody data) = Valid data.
Proof.
  intros H.
  pose proof (contactSchema_Valid_broken body data H) as Hb.
  apply contactSchema_members in H as (Hn & He & Hs & Hm & Hp & Hbu & Hh).
  destruct (toBody_members data) as (Tn & Te & Ts & Tm & Tp & Tbu & Th).
  assert (Hb' : broken (toBody data) = []).
  { rewrite <- Hb. unfold Props.broken. apply List.filter_ext. intros c.
    apply violated_members; congruence. }
  destruct (contactSchema_valid isEmail _ Hb') as [data' Hd].
  rewrite Hd. f_equal.
  apply contactSchema_members in Hd
    as (Hn' & He' & Hs' & Hm' & Hp' & Hbu' & Hh').
  destruct data, data'. simpl in *. congruence.
Qed.

End SchemaMore.

(* ------------------------------------------------------------------ *)
(** ** More on the mail transport *)

Section BrevoMore.

Import Brevo Props Terms.

Variable generateContactEmailContent :
  SendContactEmailParams.t -> string * string.

#[local] Abbreviation sendContactEmail :=
  (sendContactEmail generateContactEmailContent).

Lemma ok_bounds status : ok status = true ↔ 200 <= status <= 299.
Proof. unfold ok. rewrite andb_true_iff, !Z.leb_le. done. Qed.

(** X12: [sendBrevoEmail] returns a value exactly when the API key is set
    and the provider answered the one request with a status between 200
    and 299 and a JSON body; the value is that body. *)
Theorem sendBrevoEmail_returns w requestBody calls data :
  (sendBrevoEmail w requestBody calls).1 = Ok data
  ↔ ∃ apiKey status statusText,
      truthy (env w !! "BREVO_API_KEY") = Some apiKey
      ∧ fetch w {| FetchCall.url := BREVO_API_URL;
                   FetchCall.apiKey := apiKey;
                   FetchCall.body := requestBody |}
        = Responded status statusText (Some data)
      ∧ 200 <= status <= 299.
Proof.
  unfold sendBrevoEmail.
  destruct (truthy (env w !! "BREVO_API_KEY")) as [apiKey|];
    [|split; [done|by intros (? & ? & ? & ? & _)]].
  destruct (fetch w _) as [|status statusText body] eqn:Hf.
  { split; [done|]. intros (k & ? & ? & [= <-] & Hf' & _). congruence. }
  destruct (ok status) eqn:Hok; simpl.
  - destruct body as [data'|]; simpl.
    + split.
      * intros [= <-]. exists apiKey, status, statusText.
        split; [done|]. split; [done|]. by apply ok_bounds.
      * intros (k & st' & tx & [= <-] & Hf' & _). congruence.
    + split; [done|]. intros (k & ? & ? & [= <-] & Hf' & _). congruence.
  - split.
    + by destruct (default _ body).
    + intros (k & st' & tx & [= <-] & Hf' & Hb).
      rewrite Hf in Hf'. injection Hf' as Hst _ _. subst st'.
      apply ok_bounds in Hb. congruence.
Qed.

(** X13: whatever the provider does, [sendBrevoEmail] sends one request
    when the API key is set and none when it is not; a failure is never
    tried again. *)
Theorem sendBrevoEmail_sends_once w requestBody calls :
  (sendBrevoEmail w requestBody calls).2 =
    match truthy (env w !! "BREVO_API_KEY") with
    | Some apiKey =>
        (calls ++ [{| FetchCall.url := BREVO_API_URL;
                      FetchCall.apiKey := apiKey;
                      FetchCall.body := requestBody |}])%list
    | None => calls
    end.
Proof.
  destruct (truthy (env w !! "BREVO_API_KEY")) as [apiKey|] eqn:Hk.
  - by apply sendBrevoEmail_key.
  - by rewrite sendBrevoEmail_no_key.
Qed.

(** The errors [sendBrevoEmail] raises. *)
Lemma sendBrevoEmail_Throw w requestBody calls e :
  (sendBrevoEmail w requestBody calls).1 = Throw e →
  e = RuntimeError
  ∨ e = Error "BREVO_API_KEY is not defined in environment variables"
  ∨ ∃ reason, e = Error ("Failed to send email: " +:+ reason).
Proof.
  unfold sendBrevoEmail.
  destruct (truthy (env w !! "BREVO_API_KEY")) as [apiKey|];
    [|intros [= <-]; right; by left].
  destruct (fetch w _) as [|status statusText body];
    [intros [= <-]; by left|].
  destruct (negb (ok status)).
  - destruct (default _ body) as [|members]; intros [= <-]; [by left|].
    right. right. by eexists.
  - destruct body; [done|]. intros [= <-]. by left.
Qed.

(** X14: [sendContactEmail] never fails for want of a receiver address:
    once the sender address is set it serves as receiver, so the error
    about [BREVO_RECEIVER_EMAIL] is never raised. *)
Theorem receiver_error_is_never_raised w params calls :
  (sendContactEmail w params calls).1
  ≠ Throw (Error
      "BREVO_RECEIVER_EMAIL is not defined in environment variables").
Proof.
  unfold Brevo.sendContactEmail.
  destruct (bool_decide _); [done|].
  destruct (truthy (env w !! "BREVO_SENDER_EMAIL")) as [sender|] eqn:Hs;
    [|done].
  destruct (truthy_orElse (env w !! "BREVO_RECEIVER_EMAIL") _ _ Hs)
    as [receiver ->].
  destruct (generateContactEmailContent params) as [html text].
  destruct (sendBrevoEmail w _ calls) as [[data|e] calls'] eqn:Hsend.
  - by destruct data.
  - apply (f_equal fst) in Hsend. simpl in Hsend.
    apply sendBrevoEmail_Throw in Hsend as [->|[->|[reason ->]]]; done.
Qed.

Lemma receiver_fallback (receiver : option string) sender :
  truthy (Some sender) = Some sender →
  truthy (orElse receiver (Some sender))
  = Some (default sender (truthy receiver)).
Proof.
  intros Hs. unfold orElse.
  destruct (truthy receiver) as [r|] eqn:Hr; [|done].
  apply truthy_Some in Hr as Hr'. destruct Hr' as [-> _]. exact Hr.
Qed.

(** In production, with a sender address, the message is built and handed
    to [sendBrevoEmail]. *)
Lemma sendContactEmail_production w params calls senderEmail :
  production w →
  truthy (env w !! "BREVO_SENDER_EMAIL") = Some senderEmail →
  sendContactEmail w params calls =
    match
      sendBrevoEmail w
        (envelope (env w) senderEmail (generateContactEmailContent params)
                  params) calls
    with
    | (Throw e, calls') => (Throw e, calls')
    | (Ok data, calls') =>
        match messageId data with
        | Throw e => (Throw e, calls')
        | Ok id => (Ok (default "unknown" (truthy id)), calls')
        end
    end.
Proof.
  intros Hp Hs. unfold Brevo.sendContactEmail.
  rewrite bool_decide_eq_false_2 by (intros ?; contradiction).
  rewrite Hs.
  apply truthy_Some in Hs as Hs'. destruct Hs' as [Hs' _].
  assert (Ht : truthy (Some senderEmail) = Some senderEmail) by congruence.
  rewrite Hs', receiver_fallback by done.
  unfold envelope. by destruct (generateContactEmailContent params).
Qed.

(** X15: in production, with the API key and the sender address set,
    [sendContactEmail] sends exactly one request, to the provider's
    address and with the key: the sender is the configured one (named
    "Portfolio Contact" for want of a name), the receiver is
    [BREVO_RECEIVER_EMAIL] or else the sender, the reply goes to the
    author of the submission and the subject is the submitted one after
    "[Portfolio] ". *)
Theorem sendContactEmail_envelope w params calls apiKey senderEmail :
  production w →
  truthy (env w !! "BREVO_API_KEY") = Some apiKey →
  truthy (env w !! "BREVO_SENDER_EMAIL") = Some senderEmail →
  (sendContactEmail w params calls).2 =
    (calls ++
     [{| FetchCall.url := "https://api.brevo.com/v3/smtp/email";
         FetchCall.apiKey := apiKey;
         FetchCall.body :=
           envelope (env w) senderEmail (generateContactEmailContent params)
                    params |}])%list.
Proof.
  intros Hp Hk Hs. rewrite (sendContactEmail_production _ _ _ senderEmail)
    by done.
  pose proof (sendBrevoEmail_key w
    (envelope (env w) senderEmail (generateContactEmailContent params) params)
    calls apiKey Hk) as H.
  destruct (sendBrevoEmail w _ calls) as [[data|e] calls']; simpl in H;
    [|by subst].
  subst. by destruct (messageId data).
Qed.

Lemma sendContactEmail_Ok_id w params calls id calls' :
  sendContactEmail w params calls = (Ok id, calls') → id ≠ "".
Proof.
  unfold Brevo.sendContactEmail.
  destruct (bool_decide _); [by intros [= <- _]|].
  destruct (truthy (env w !! "BREVO_SENDER_EMAIL")); [|done].
  destruct (truthy (orElse _ _)); [|done].
  destruct (generateContactEmailContent params) as [html text].
  destruct (sendBrevoEmail w _ calls) as [[data|e] calls'']; [|done].
  destruct (messageId data) as [mid|]; [|done].
  intros [= <- _].
  destruct (truthy mid) as [given|] eqn:Hm; [|done].
  simpl. by apply truthy_Some in Hm as [_ ?].
Qed.

(** X16: the identifier [sendContactEmail] answers is never the empty
    string (an empty or missing identifier of the provider is replaced by
    "unknown"), and outside production it is "dev-console". *)
Theorem messageId_is_never_empty w params calls id calls' :
  sendContactEmail w params calls = (Ok id, calls') →
  id ≠ "" ∧ (¬ production w → id = "dev-console").
Proof.
  intros H. split; [by eapply sendContactEmail_Ok_id|]. intros Hp.
  rewrite sendContactEmail_bypass in H by done. by injection H as <- _.
Qed.

(** What [sendContactEmail] adds to the requests sent. *)
Lemma sendContactEmail_calls w params calls :
  (sendContactEmail w params calls).2 = calls
  ∨ (production w ∧ ∃ call, (sendContactEmail w params calls).2
                            = (calls ++ [call])%list).
Proof.
  destruct (decide (production w)) as [Hp|Hp];
    [|left; by rewrite sendContactEmail_bypass].
  destruct (truthy (env w !! "BREVO_SENDER_EMAIL")) as [sender|] eqn:Hs;
    [|left; by rewrite sendContactEmail_no_sender].
  destruct (truthy (env w !! "BREVO_API_KEY")) as [apiKey|] eqn:Hk.
  - right. split; [done|]. eexists.
    rewrite (sendContactEmail_production _ _ _ sender) by done.
    pose proof (sendBrevoEmail_key w
      (envelope (env w) sender (generateContactEmailContent params) params)
      calls apiKey Hk) as H.
    destruct (sendBrevoEmail w _ calls) as [[data|e] calls']; simpl in H;
      [|by subst].
    subst. by destruct (messageId data).
  - left. by rewrite sendContactEmail_no_key.
Qed.

End BrevoMore.

(* ------------------------------------------------------------------ *)
(** ** More on the POST handler and its client *)

Section RouteMore.

Import RateLimit Schema Brevo Route Props Terms Client.

Variable isEmail : string -> bool.
Variable generateContactEmailContent :
  SendContactEmailParams.t -> string * string.

#[local] Abbreviation POST := (POST isEmail generateContactEmailContent).
#[local] Abbreviation broken := (broken isEmail).
#[local] Abbreviation sendContactEmail :=
  (sendContactEmail generateContactEmailContent).
#[local] Abbreviation check w request st :=
  (isRateLimited (ClientIp.getClientIp (Request.headers request)) None
                 (now w) (rateLimitMap st)).

Implicit Types (w : World) (request : Request.t) (st : State).

Lemma entries_of_issues (cs : list Constraint) :
  map (λ issue, {| FieldError.field := join (Issue.path issue);
                   FieldError.message := Issue.message issue |})
      (map toIssue cs)
  = map entry cs.
Proof. rewrite map_map. apply map_ext. by intros c. Qed.

(** The answer to a body that breaks constraints. *)
Lemma POST_broken w request st body :
  (check w request st).1 = false →
  Request.json request = Some body →
  broken body ≠ [] →
  POST w request st =
    (validationError (map entry (broken body)),
     {| rateLimitMap := (check w request st).2; calls := calls st |}).
Proof.
  intros Hc Hj Hb. destruct (broken body) as [|c cs] eqn:Hbr; [done|].
  rewrite (POST_invalid _ _ _ _ _ body _ Hc Hj
             (contactSchema_invalid isEmail body c cs Hbr)).
  by rewrite entries_of_issues.
Qed.

(** The answer to a body that breaks none. *)
Lemma POST_accepted w request st body :
  (check w request st).1 = false →
  Request.json request = Some body →
  broken body = [] →
  ∃ data,
    contactSchema isEmail body = Valid data
    ∧ POST w request st =
        match sendContactEmail w (paramsOf data) (calls st) with
        | (Ok messageId, calls') =>
            (sent messageId,
             {| rateLimitMap := (check w request st).2; calls := calls' |})
        | (Throw _, calls') =>
            (serverError,
             {| rateLimitMap := (check w request st).2; calls := calls' |})
        end.
Proof.
  intros Hc Hj Hb. destruct (contactSchema_valid isEmail body Hb) as [data Hd].
  exists data. split; [done|].
  by rewrite (POST_valid _ _ _ _ _ body data Hc Hj Hd).
Qed.

(** The five answers of the handler. *)
Lemma POST_answers w request st :
  (POST w request st).1 = tooManyRequests
  ∨ (POST w request st).1 = invalidJson
  ∨ (∃ errors, errors ≠ [] ∧ (POST w request st).1 = validationError errors)
  ∨ (∃ id, id ≠ "" ∧ (POST w request st).1 = sent id)
  ∨ (POST w request st).1 = serverError.
Proof.
  destruct ((check w request st).1) eqn:Hc;
    [left; by rewrite POST_limited|right].
  destruct (Request.json request) as [body|] eqn:Hj;
    [right|left; by rewrite POST_invalid_json].
  destruct (broken body) as [|c cs] eqn:Hb.
  - right. destruct (POST_accepted w request st body Hc Hj Hb)
      as (data & _ & ->).
    destruct (sendContactEmail w (paramsOf data) (calls st))
      as [[id|e] calls'] eqn:Hsend; [left|by right].
    exists id. split; [|done].
    by eapply sendContactEmail_Ok_id.
  - left. rewrite (POST_broken w request st body) by (done || by rewrite Hb).
    rewrite Hb. by exists (map entry (c :: cs)).
Qed.

(** X17: the handler answers in one of five ways and no other: 429 with
    the quota error, 400 for a body that is not JSON, 400 with a list of
    validation errors that is not empty, 500 with the fixed server error,
    or 200 with success and a message identifier that is not empty.  So
    the status is 200 exactly for a success. *)
Theorem POST_answers_in_five_ways w request st :
  ((POST w request st).1 = tooManyRequests
   ∨ (POST w request st).1 = invalidJson
   ∨ (∃ errors, errors ≠ [] ∧ (POST w request st).1 = validationError errors)
   ∨ (∃ id, id ≠ "" ∧ (POST w request st).1 = sent id)
   ∨ (POST w request st).1 = serverError)
  ∧ (success (Response.body (POST w request st).1) = true
     ↔ Response.status (POST w request st).1 = 200).
Proof.
  split; [apply POST_answers|].
  destruct (POST_answers w request st)
    as [H|[H|[(errors & _ & H)|[(mid & _ & H)|H]]]]; rewrite H; by split.
Qed.

(** What a request adds to the requests sent to the provider. *)
Lemma POST_calls w request st :
  calls (POST w request st).2 = calls st
  ∨ (production w
     ∧ (Response.status (POST w request st).1 = 200
        ∨ Response.status (POST w request st).1 = 500)
     ∧ ∃ call, calls (POST w request st).2 = (calls st ++ [call])%list).
Proof.
  destruct ((check w request st).1) eqn:Hc;
    [left; by rewrite POST_limited|].
  destruct (Request.json request) as [body|] eqn:Hj;
    [|left; by rewrite POST_invalid_json].
  destruct (broken body) as [|c cs] eqn:Hb.
  - destruct (POST_accepted w request st body Hc Hj Hb) as (data & _ & ->).
    destruct (sendContactEmail_calls generateContactEmailContent w
                (paramsOf data) (calls st)) as [H|(Hp & call & H)].
    + left. by destruct (sendContactEmail w (paramsOf data) (calls st))
        as [[id|e] calls'].
    + right. split; [done|].
      destruct (sendContactEmail w (paramsOf data) (calls st))
        as [[id|e] calls']; simpl in *; (split; [by auto|by exists call]).
  - left. by rewrite (POST_broken w request st body)
      by (done || by rewrite Hb).
Qed.

(** X18: a request never makes more than one request to the provider and
    never drops one already made; it makes one only in production and
    only when it is answered 200 or 500: nothing is sent for a request
    that is over quota, not JSON or not valid. *)
Theorem POST_sends_at_most_once w request st :
  ∃ sent,
    calls (POST w request st).2 = (calls st ++ sent)%list
    ∧ (length sent ≤ 1)%nat
    ∧ (Response.status (POST w request st).1 = 400
       ∨ Response.status (POST w request st).1 = 429
       ∨ ¬ production w → sent = []).
Proof.
  destruct (POST_calls w request st) as [H|(Hp & Hst & call & H)].
  - exists []. rewrite app_nil_r. split; [done|]. split; [simpl; lia|done].
  - exists [call]. split; [done|]. split; [simpl; lia|].
    intros [H4|[H4|H4]]; [| |done]; destruct Hst as [Hs|Hs]; congruence.
Qed.

(** X19: within quota, a body that breaks constraints is answered with
    one entry for each broken constraint, in the order of the schema, and
    nothing is sent; a body that breaks none is never answered with a
    validation error. *)
Theorem POST_lists_every_broken_constraint w request st body :
  (check w request st).1 = false →
  Request.json request = Some body →
  (broken body ≠ [] →
     (POST w request st).1 = validationError (map entry (broken body))
     ∧ calls (POST w request st).2 = calls st)
  ∧ (broken body = [] →
     code (Response.body (POST w request st).1) ≠ Some "VALIDATION_ERROR").
Proof.
  intros Hc Hj. split; intros Hb.
  - by rewrite (POST_broken w request st body).
  - destruct (POST_accepted w request st body Hc Hj Hb) as (data & _ & ->).
    by destruct (sendContactEmail w (paramsOf data) (calls st))
      as [[id|e] calls'].
Qed.

Lemma broken_email_twice body e :
  body !! "email" = Some e →
  isEmail e = false →
  255 < len e →
  (∀ c, c ≠ email_syntax → c ≠ email_max → violated isEmail c body = false) →
  broken body = [email_syntax; email_max].
Proof.
  intros He Hsyn Hlen Hothers. apply Z.ltb_lt in Hlen.
  assert (H : ∀ c, violated isEmail c body
                   = bool_decide (c ∈ [email_syntax; email_max])).
  { intros c. destruct c; try (by rewrite Hothers);
      cbn [violated longer]; by rewrite He, ?Hsyn, ?Hlen. }
  unfold Props.broken. by rewrite (List.filter_ext _ _ H).
Qed.

(** X20: one member can give two entries: an email that is not an address
    and is longer than 255 characters is reported twice, first for its
    syntax and then for its length. *)
Theorem POST_reports_email_twice w request st body e :
  (check w request st).1 = false →
  Request.json request = Some body →
  body !! "email" = Some e →
  isEmail e = false →
  255 < len e →
  (∀ c, c ≠ email_syntax → c ≠ email_max → violated isEmail c body = false) →
  (POST w request st).1 =
    validationError
      [{| FieldError.field := "email";
          FieldError.message :=
            Text "Veuillez entrer une adresse email valide" |};
       {| FieldError.field := "email";
          FieldError.message :=
            Text "L'email ne peut pas dépasser 255 caractères" |}].
Proof.
  intros Hc Hj He Hsyn Hlen Hothers.
  pose proof (broken_email_twice body e He Hsyn Hlen Hothers) as Hb.
  rewrite (POST_broken w request st body) by (done || by rewrite Hb).
  by rewrite Hb.
Qed.

(** X21: in production with the API key and the sender address set, a
    request within quota whose body breaks no constraint, and that the
    provider answers with a status between 200 and 299 and a JSON object,
    is answered 200 with the provider's identifier ("unknown" for want of
    one); exactly one message has left, whose reply address, reply name
    and subject are the submitted email, name and subject. *)
Theorem POST_delivers w request st body apiKey senderEmail
    status statusText members :
  (check w request st).1 = false →
  Request.json request = Some body →
  broken body = [] →
  production w →
  truthy (env w !! "BREVO_API_KEY") = Some apiKey →
  truthy (env w !! "BREVO_SENDER_EMAIL") = Some senderEmail →
  (∀ call, fetch w call = Responded status statusText (Some (Value members))) →
  200 <= status <= 299 →
  (POST w request st).1
    = sent (default "unknown" (truthy (members !! "messageId")))
  ∧ ∃ call,
      calls (POST w request st).2 = (calls st ++ [call])%list
      ∧ FetchCall.apiKey call = apiKey
      ∧ body !! "email"
        = Some (Address.email
                  (BrevoEmailRequestBody.replyTo (FetchCall.body call)))
      ∧ body !! "name"
        = Some (Address.name
                  (BrevoEmailRequestBody.replyTo (FetchCall.body call)))
      ∧ (λ s, "[Portfolio] " +:+ s) <$> body !! "subject"
        = Some (BrevoEmailRequestBody.subject (FetchCall.body call)).
Proof.
  intros Hc Hj Hb Hp Hk Hs Hfetch Hok.
  destruct (POST_accepted w request st body Hc Hj Hb) as (data & Hd & ->).
  apply contactSchema_members in Hd as (Hn & He & Hsu & _).
  rewrite (sendContactEmail_production _ _ _ _ senderEmail) by done.
  unfold sendBrevoEmail. rewrite Hk, Hfetch.
  apply ok_bounds in Hok. rewrite Hok. simpl.
  split; [done|]. eexists. split; [done|]. simpl.
  rewrite Hn, He, Hsu. done.
Qed.

(** X22: under the same conditions, when the provider does not answer
    with a status between 200 and 299 and a JSON body that is not
    [null], the request is answered with the fixed server error, status
    500, which carries nothing of the provider's reply; one request has
    left for the provider and none is made again. *)
Theorem POST_provider_failure w request st body apiKey senderEmail :
  (check w request st).1 = false →
  Request.json request = Some body →
  broken body = [] →
  production w →
  truthy (env w !! "BREVO_API_KEY") = Some apiKey →
  truthy (env w !! "BREVO_SENDER_EMAIL") = Some senderEmail →
  (∀ call, usable (fetch w call) = false) →
  (POST w request st).1 = serverError
  ∧ ∃ call, calls (POST w request st).2 = (calls st ++ [call])%list.
Proof.
  intros Hc Hj Hb Hp Hk Hs Hfetch.
  destruct (POST_accepted w request st body Hc Hj Hb) as (data & Hd & ->).
  rewrite (sendContactEmail_production _ _ _ _ senderEmail) by done.
  unfold sendBrevoEmail. rewrite Hk.
  match goal with |- context [fetch w ?c] =>
    specialize (Hfetch c); destruct (fetch w c) as [|status statusText reply]
  end; [simpl; eauto|].
  unfold usable in Hfetch.
  destruct (ok status) eqn:Hok; simpl.
  - destruct reply as [[|members]|]; simpl; [eauto|done|eauto].
  - destruct (default _ reply); simpl; eauto.
Qed.

End RouteMore.

(* ------------------------------------------------------------------ *)
(** ** The form and the client of the route *)

Section ClientFacts.

Import RateLimit Schema Brevo Route Props Terms Client.

Variable isEmail : string -> bool.
Variable generateContactEmailContent :
  SendContactEmailParams.t -> string * string.

#[local] Abbreviation POST := (POST isEmail generateContactEmailContent).
#[local] Abbreviation broken := (broken isEmail).
#[local] Abbreviation onSubmit := (onSubmit isEmail).

Lemma lastOn_cons key c cs :
  lastOn key (c :: cs) =
    match lastOn key cs with
    | Some c' => Some c'
    | None => if String.eqb (field c) key then Some c else None
    end.
Proof.
  unfold lastOn. cbn [List.filter].
  destruct (String.eqb (field c) key); [|by destruct (last _)].
  by rewrite last_cons.
Qed.

(** The record the form's validator fills: under each member the text of
    the last issue raised for it. *)
Lemma fieldErrors_lookup (cs : list Constraint) (acc : gmap string Message) key :
  foldl (λ (fieldErrors : gmap string Message) issue,
           <[default "undefined" (head (Issue.path issue))
             := Issue.message issue]> fieldErrors)
        acc (map toIssue cs) !! key
  = match lastOn key cs with
    | Some c => Some (text c)
    | None => acc !! key
    end.
Proof.
  revert acc. induction cs as [|c cs IH]; intros acc; [done|].
  cbn [map foldl]. rewrite IH, lastOn_cons.
  destruct (lastOn key cs); [done|]. simpl.
  destruct (String.eqb_spec (field c) key) as [->|Hne].
  - by rewrite lookup_insert_eq.
  - by rewrite lookup_insert_ne.
Qed.

(** X23: the form's validator lets the values through exactly when they
    break no constraint of the schema; else it reports, under each member
    that breaks one, the text of the last constraint broken for that
    member, and nothing under the other members. *)
Theorem onSubmit_reports_the_last_issue value :
  (onSubmit value = None ↔ broken value = [])
  ∧ ∀ fieldErrors, onSubmit value = Some fieldErrors →
      ∀ key, fieldErrors !! key = text <$> lastOn key (broken value).
Proof.
  unfold Client.onSubmit.
  pose proof (issuesOf_contactSchema isEmail value) as Hi.
  pose proof (sound_contactSchema isEmail value) as Hs.
  destruct (contactSchema isEmail value) as [data|issues]; simpl in *.
  - assert (Hb : broken value = []) by (by destruct (broken value)).
    split; [done|]. done.
  - split.
    + split; [done|]. intros Hb. rewrite Hb in Hi. simpl in Hi.
      by subst issues.
    + intros fieldErrors [= <-] key. rewrite Hi, fieldErrors_lookup.
      by destruct (lastOn key (broken value)).
Qed.

(** X24: what the form's validator lets through, the server's validation
    lets through too: sent within quota, such values are never answered
    with a validation error. *)
Theorem form_and_server_agree w headers st value :
  onSubmit value = None →
  (isRateLimited (ClientIp.getClientIp headers) None (now w)
                 (rateLimitMap st)).1 = false →
  code (Response.body
          (POST w {| Request.headers := headers;
                     Request.json := Some value |} st).1)
  ≠ Some "VALIDATION_ERROR".
Proof.
  intros Hv Hc. unfold Client.onSubmit in Hv.
  destruct (contactSchema isEmail value) as [data|] eqn:Hd; [|done].
  rewrite (POST_valid isEmail generateContactEmailContent w _ st value data)
    by done.
  by destruct (sendContactEmail _ _ _ _) as [[id|e] calls'].
Qed.

(** X25: [sendContactMessage], talking to the handler, returns the body of
    the answer exactly when that is a success and otherwise throws an
    error whose message is the [error] text of the answer: the client
    never returns a failure as a value. *)
Theorem sendContactMessage_follows_the_server w headers st data :
  match
    sendContactMessage
      (λ body, deliver (POST w {| Request.headers := headers;
                                  Request.json := Some body |} st).1)
      data
  with
  | Ok result =>
      result = Response.body
                 (POST w {| Request.headers := headers;
                            Request.json := Some (toBody data) |} st).1
      ∧ success result = true
  | Throw e =>
      ∃ error code errors,
        Response.body
          (POST w {| Request.headers := headers;
                     Request.json := Some (toBody data) |} st).1
        = Failure error code errors
        ∧ e = Error error
  end.
Proof.
  unfold sendContactMessage, deliver.
  destruct (POST_answers isEmail generateContactEmailContent w
              {| Request.headers := headers;
                 Request.json := Some (toBody data) |} st)
    as [H|[H|[(errors & _ & H)|[(mid & _ & H)|H]]]]; rewrite H; simpl;
    eauto.
Qed.

(** X26: the on-blur validators of [name], [subject] and [message] report
    exactly the minimal length of the schema, with the text of the
    schema; they look at nothing else, so a value over the maximal length
    passes them. *)
Theorem onBlur_mirrors_the_minimum (v : string) (body : gmap string string) :
  Text <$> nameOnBlur v
    = (if violated isEmail name_min (<["name" := v]> body)
       then Some (text name_min) else None)
  ∧ Text <$> subjectOnBlur v
    = (if violated isEmail subject_min (<["subject" := v]> body)
       then Some (text subject_min) else None)
  ∧ Text <$> messageOnBlur v
    = (if violated isEmail message_min (<["message" := v]> body)
       then Some (text message_min) else None).
Proof.
  unfold nameOnBlur, subjectOnBlur, messageOnBlur.
  cbn [violated shorter]. rewrite !lookup_insert_eq.
  destruct (String.eqb_spec v "") as [->|Hne]; [done|]. simpl.
  by destruct (len v <? 2), (len v <? 3), (len v <? 20).
Qed.

End ClientFacts.

(* ------------------------------------------------------------------ *)
(** ** The further properties on sample inputs *)

Section MoreInstances.

Import RateLimit Schema Brevo Route Props Terms Client Sample.

#[local] Abbreviation POST := (POST EmailPattern.test render).

(** The values of the sample submission. *)
#[local] Abbreviation values :=
  {| name := "Jo"; email := "a@b.com"; subject := "Hi there";
     message := "xxxxxxxxxxxxxxxxxxxx"; projectType := None;
     budget := None; honeypot := Some "" |}.

(** The sample submission with an email of 256 letters. *)
#[local] Abbreviation longEmail :=
  (<["email" := string_of_list_ascii (repeat "x"%char 256)]> submission).

(** A provider that turns the key down. *)
#[local] Abbreviation refused :=
  {| now := 1000; env := productionEnv;
     fetch := λ _, Responded 401 "Unauthorized"
                     (Some (Value {["message" := "Key not found"]})) |}.

Lemma accepted_values_validate_again_witness :
  contactSchema EmailPattern.test (toBody values) = Valid values.
Proof.
  apply (accepted_values_validate_again EmailPattern.test submission).
  vm_compute. reflexivity.
Defined.

Lemma sendContactEmail_envelope_witness :
  (sendContactEmail render (prod 1000) (paramsOf values) []).2 =
    [{| FetchCall.url := "https://api.brevo.com/v3/smtp/email";
        FetchCall.apiKey := "xkeysib-0000";
        FetchCall.body :=
          envelope productionEnv "site@example.org"
                   (render (paramsOf values)) (paramsOf values) |}].
Proof.
  apply (sendContactEmail_envelope render (prod 1000) (paramsOf values) []
           "xkeysib-0000" "site@example.org").
  - vm_compute. reflexivity.
  - vm_compute. reflexivity.
  - vm_compute. reflexivity.
Defined.

Lemma messageId_is_never_empty_witness :
  "<202611020001@smtp-relay>" ≠ "".
Proof.
  apply (messageId_is_never_empty render (prod 1000) (paramsOf values) []
           "<202611020001@smtp-relay>"
           (sendContactEmail render (prod 1000) (paramsOf values) []).2).
  vm_compute. reflexivity.
Defined.

Lemma POST_lists_every_broken_constraint_witness :
  (POST (prod 1000)
        (request (Some (<["name" := "J"]> (<["message" := "12345"]> submission))))
        start).1
  = validationError [entry name_min; entry message_min].
Proof.
  etrans.
  - apply (proj1 (POST_lists_every_broken_constraint EmailPattern.test render
             (prod 1000)
             (request (Some (<["name" := "J"]>
                               (<["message" := "12345"]> submission))))
             start _ eq_refl eq_refl)).
    vm_compute. discriminate.
  - vm_compute. reflexivity.
Defined.

Lemma POST_reports_email_twice_witness :
  (POST (prod 1000) (request (Some longEmail)) start).1 =
    validationError
      [{| FieldError.field := "email";
          FieldError.message :=
            Text "Veuillez entrer une adresse email valide" |};
       {| FieldError.field := "email";
          FieldError.message :=
            Text "L'email ne peut pas dépasser 255 caractères" |}].
Proof.
  apply (POST_reports_email_twice EmailPattern.test render (prod 1000)
           (request (Some longEmail)) start longEmail
           (string_of_list_ascii (repeat "x"%char 256))).
  - vm_compute. reflexivity.
  - reflexivity.
  - vm_compute. reflexivity.
  - vm_compute. reflexivity.
  - vm_compute. reflexivity.
  - intros c H1 H2. destruct c; (by vm_compute) || contradiction.
Defined.

Lemma POST_delivers_witness :
  (POST (prod 1000) (request (Some submission)) start).1
  = sent "<202611020001@smtp-relay>".
Proof.
  etrans.
  - refine (proj1 (POST_delivers EmailPattern.test render (prod 1000)
                     (request (Some submission)) start submission
                     "xkeysib-0000" "site@example.org" 201 "Created"
                     {["messageId" := "<202611020001@smtp-relay>"]}
                     _ _ _ _ _ _ _ _)).
    + vm_compute. reflexivity.
    + reflexivity.
    + vm_compute. reflexivity.
    + vm_compute. reflexivity.
    + vm_compute. reflexivity.
    + vm_compute. reflexivity.
    + intros call. reflexivity.
    + lia.
  - vm_compute. reflexivity.
Defined.

Lemma POST_provider_failure_witness :
  (POST refused (request (Some submission)) start).1 = serverError.
Proof.
  refine (proj1 (POST_provider_failure EmailPattern.test render refused
                   (request (Some submission)) start submission
                   "xkeysib-0000" "site@example.org" _ _ _ _ _ _ _)).
  - vm_compute. reflexivity.
  - reflexivity.
  - vm_compute. reflexivity.
  - vm_compute. reflexivity.
  - vm_compute. reflexivity.
  - vm_compute. reflexivity.
  - intros call. reflexivity.
Defined.

Lemma onSubmit_reports_the_last_issue_witness :
  default ∅ (onSubmit EmailPattern.test longEmail) !! "email"
  = Some (Text "L'email ne peut pas dépasser 255 caractères").
Proof.
  destruct (onSubmit EmailPattern.test longEmail) as [fieldErrors|] eqn:H.
  - simpl. etrans.
    + apply (proj2 (onSubmit_reports_the_last_issue EmailPattern.test
                      longEmail) fieldErrors H "email").
    + vm_compute. reflexivity.
  - exfalso. vm_compute in H. discriminate.
Defined.

(** Values without email: the form shows, under [email], the text the
    schema gives to the email. *)
Example onSubmit_missing_email :
  default ∅ (onSubmit EmailPattern.test (delete "email" submission))
    !! "email"
  = Some (Text "Veuillez entrer une adresse email valide").
Proof. by vm_compute. Qed.

Lemma form_and_server_agree_witness :
  code (Response.body
          (POST (prod 1000)
             {| Request.headers := ∅; Request.json := Some submission |}
             start).1)
  ≠ Some "VALIDATION_ERROR".
Proof.
  apply (form_and_server_agree EmailPattern.test render (prod 1000) ∅ start
           submission).
  - vm_compute. reflexivity.
  - vm_compute. reflexivity.
Defined.

End MoreInstances.
